(** * Monte Carlo pricing of a European call: the numeric core

    A shallow embedding of [src/rng.c], [src/option.c], [src/gbm.c],
    [src/normal.c] and [src/monte_carlo.c].

    - The generator state is a [uint32_t]: a [Z] in [0, 2^32), and every
      shift that can leave that range is wrapped explicitly.
    - The static variable [rng_state] is threaded through the sampling
      functions by a small state monad, [rng].
    - The C type [double] is an interface, [Double], with two instances:
      [ieee], the IEEE-754 binary64 numbers of the kernel, where NaN and the
      infinities are values like any other, and [ideal], the real numbers,
      where the pricing formulas are read as mathematics.  Every function of
      the program is written once, over the interface. *)

From Stdlib Require Uint63.
From Stdlib Require String Ascii.
From Stdlib Require Import Floats.
From Stdlib Require Import ZArith Lia List Bool.
From Stdlib Require Import Reals Lra.
Import ListNotations.

#[local] Set Warnings "-inexact-float".

(** * Part I: the program *)

(** ** The interface of [double] *)

Class Double : Type := {
  double : Type;
  d_zero : double;                         (* 0.0 *)
  d_half : double;                         (* 0.5 *)
  d_one : double;                          (* 1.0 *)
  d_two : double;                          (* 2.0 *)
  d_pi : double;                           (* M_PI *)
  d_add : double -> double -> double;
  d_sub : double -> double -> double;
  d_mul : double -> double -> double;
  d_div : double -> double -> double;
  d_neg : double -> double;
  d_gt : double -> double -> bool;         (* x > y *)
  d_of_uint32 : Z -> double;               (* (double)n for a uint32_t n *)
  d_sqrt : double -> double;
  d_exp : double -> double;
  d_log : double -> double;
  d_cos : double -> double;
  d_erf : double -> double
}.

Declare Scope double_scope.
Delimit Scope double_scope with dbl.
Infix "+" := d_add : double_scope.
Infix "-" := d_sub : double_scope.
Infix "*" := d_mul : double_scope.
Infix "/" := d_div : double_scope.
Notation "- x" := (d_neg x) : double_scope.
Notation "x >? y" := (d_gt x y) (at level 70, no associativity) : double_scope.

(** ** The generator state and its monad *)

Local Open Scope Z_scope.

Definition UINT32_MAX : Z := 4294967295.

(** Wrap-around of [uint32_t] arithmetic. *)
Definition wrap32 (z : Z) : Z := z mod 2 ^ 32.

(** The values of a [uint32_t]. *)
Definition is_uint32 (z : Z) : Prop := 0 <= z < 2 ^ 32.

(** The invariant of the generator: a 32-bit state that is not zero. *)
Definition live_state (st : Z) : Prop := is_uint32 st /\ st <> 0.

(** A computation that reads and updates the static [rng_state]. *)
Definition rng (A : Type) : Type := Z -> A * Z.

Definition ret {A : Type} (a : A) : rng A := fun st => (a, st).

Definition bind {A B : Type} (c : rng A) (k : A -> rng B) : rng B :=
  fun st => let (a, st') := c st in k a st'.

Notation "x <- c ;; k" := (bind c (fun x => k))
  (at level 61, c at next level, right associativity).

(** [n] successive runs of a computation, results in order. *)
Fixpoint replicate_rng {A : Type} (n : nat) (c : rng A) : rng (list A) :=
  match n with
  | O => ret []
  | S n' => a <- c ;; l <- replicate_rng n' c ;; ret (a :: l)
  end.

(** The state a process starts with: a static [uint32_t] is zero until
    [rng_seed] is called. *)
Definition rng_state_initial : Z := 0.

(** [rng_seed]: the state it stores. *)
Definition rng_seed (seed : Z) : Z :=
  let seed := if Z.eqb seed 0 then 1 else seed in
  seed.

(** The three assignments of [xorshift32] to its local [x]. *)
Definition xorshift32_step (x : Z) : Z :=
  let x := Z.lxor x (wrap32 (Z.shiftl x 13)) in
  let x := Z.lxor x (Z.shiftr x 17) in
  let x := Z.lxor x (wrap32 (Z.shiftl x 5)) in
  x.

(** [xorshift32(&rng_state)]: stores the new value and returns it. *)
Definition xorshift32 : rng Z :=
  fun state => let x := xorshift32_step state in (x, x).

(** The state after [n] calls of [xorshift32]. *)
Fixpoint advance (n : nat) (st : Z) : Z :=
  match n with
  | O => st
  | S n' => advance n' (xorshift32_step st)
  end.

(** ** The functions of the program, over any [double] *)

Section Program.
Context {D : Double}.
Local Open Scope double_scope.

(** The quotient that [random_double] forms from a generator output. *)
Definition uniform_of (x : Z) : double :=
  d_of_uint32 x / d_of_uint32 UINT32_MAX.

Definition random_double : rng double :=
  x <- xorshift32 ;;
  ret (d_of_uint32 x / d_of_uint32 UINT32_MAX).

(** The expression that [normal_random] returns. *)
Definition box_muller (u1 u2 : double) : double :=
  d_sqrt (- d_two * d_log u1) * d_cos (d_two * d_pi * u2).

Definition normal_random : rng double :=
  u1 <- random_double ;;
  u2 <- random_double ;;
  ret (box_muller u1 u2).

(** The first uniform of [normal_random], the argument of its [log]. *)
Definition normal_random_u1 (st : Z) : double := fst (random_double st).

Definition simulate_gbm (S0 r sigma T : double) : rng double :=
  Z <- normal_random ;;
  ret (S0 * d_exp ((r - d_half * sigma * sigma) * T + sigma * d_sqrt T * Z)).

Definition call_payoff (S K : double) : double :=
  if S >? K then S - K else d_zero.

Definition put_payoff (S K : double) : double :=
  if K >? S then K - S else d_zero.

Definition normal_cdf (x : double) : double :=
  d_half * (d_one + d_erf (x / d_sqrt d_two)).

(** The body of the [for] loop of [price_european_call_mc] up to the
    payoff. *)
Definition payoff_draw (S0 K r sigma T : double) : rng double :=
  ST <- simulate_gbm S0 r sigma T ;; ret (call_payoff ST K).

(** The [for] loop of [price_european_call_mc]: [n] iterations to go,
    [payoff_sum] accumulated so far. *)
Fixpoint mc_loop (S0 K r sigma T : double) (n : nat) (payoff_sum : double)
  : rng double :=
  match n with
  | O => ret payoff_sum
  | S n' =>
      ST <- simulate_gbm S0 r sigma T ;;
      let payoff := call_payoff ST K in
      mc_loop S0 K r sigma T n' (payoff_sum + payoff)
  end.

(** The counter [i] runs over [0 .. n_sim - 1] without wrapping, so the body
    is entered [n_sim] times. *)
Definition price_european_call_mc (S0 K r sigma T : double) (n_sim : Z)
  : rng double :=
  payoff_sum <- mc_loop S0 K r sigma T (Z.to_nat n_sim) d_zero ;;
  let avg_payoff := payoff_sum / d_of_uint32 n_sim in
  let discounted_price := avg_payoff * d_exp (- r * T) in
  ret discounted_price.

Definition price_european_call_bs (S0 K r sigma T : double) : double :=
  let sqrt_T := d_sqrt T in
  let d1 :=
    (d_log (S0 / K) + (r + d_half * sigma * sigma) * T) / (sigma * sqrt_T) in
  let d2 := d1 - sigma * sqrt_T in
  let call_price :=
    S0 * normal_cdf d1 - K * d_exp (- r * T) * normal_cdf d2 in
  call_price.

(** The divisor and the value of the local [d1] of
    [price_european_call_bs]. *)
Definition bs_divisor (sigma T : double) : double := sigma * d_sqrt T.

Definition bs_d1 (S0 K r sigma T : double) : double :=
  (d_log (S0 / K) + (r + d_half * sigma * sigma) * T) / bs_divisor sigma T.

End Program.

(** ** [double] as the real numbers *)

Local Open Scope R_scope.

(** The integrand of the error function. *)
Definition gauss_kernel (t : R) : R := exp (- (t * t)).

Definition gauss_kernel_integrable (a b : R)
  : Riemann_integrable gauss_kernel a b.
Proof.
  assert (Hc : continuity gauss_kernel)
    by (apply derivable_continuous; unfold gauss_kernel; reg).
  destruct (Rle_dec a b) as [Hab | Hab].
  - apply continuity_implies_RiemannInt; [exact Hab | ].
    intros x _. apply Hc.
  - apply RiemannInt_P1.
    apply continuity_implies_RiemannInt; [lra | ].
    intros x _. apply Hc.
Defined.

(** [erf x = 2 / sqrt pi * integral of exp(-t^2) for t from 0 to x]. *)
Definition erf (x : R) : R :=
  2 / sqrt PI * RiemannInt (gauss_kernel_integrable 0 x).

#[export] Instance ideal : Double := {|
  double := R;
  d_zero := 0;
  d_half := 5 / 10;
  d_one := 1;
  d_two := 2;
  d_pi := PI;
  d_add := Rplus;
  d_sub := Rminus;
  d_mul := Rmult;
  d_div := Rdiv;
  d_neg := Ropp;
  d_gt := fun x y => if Rgt_dec x y then true else false;
  d_of_uint32 := IZR;
  d_sqrt := sqrt;
  d_exp := exp;
  d_log := ln;
  d_cos := cos;
  d_erf := erf
|}.

(** ** [double] as IEEE-754 binary64 *)

(** The four functions of [<math.h>] that the program calls besides [sqrt]
    (which IEEE-754 fixes, and the kernel provides). *)
Class Libm : Type := {
  c_exp : PrimFloat.float -> PrimFloat.float;
  c_log : PrimFloat.float -> PrimFloat.float;
  c_cos : PrimFloat.float -> PrimFloat.float;
  c_erf : PrimFloat.float -> PrimFloat.float
}.

(** What C99 Annex F fixes for them at the special arguments the program can
    reach: [exp(+-0) = 1] (F.9.3.1); [log(+-0) = -inf] and [log(1) = +0]
    (F.9.3.7); [cos(+-0) = 1] (F.9.1.5); [erf(+-inf) = +-1] (F.9.5.1); a NaN
    argument gives a NaN result (F.9). *)
Class AnnexF (M : Libm) : Prop := {
  exp_zero : forall x, PrimFloat.is_zero x = true -> c_exp x = 1%float;
  log_zero :
    forall x, PrimFloat.is_zero x = true -> c_log x = PrimFloat.neg_infinity;
  log_one : c_log 1%float = 0%float;
  cos_zero : forall x, PrimFloat.is_zero x = true -> c_cos x = 1%float;
  erf_infinity : c_erf PrimFloat.infinity = 1%float;
  erf_neg_infinity : c_erf PrimFloat.neg_infinity = (-1)%float;
  erf_nan : c_erf PrimFloat.nan = PrimFloat.nan
}.

(** [M_PI] as [rng.c] defines it, 3.14159265358979323846, is the binary64
    number 0x1.921fb54442d18p+1. *)
Definition M_PI : PrimFloat.float := 0x1.921fb54442d18p+1%float.

#[export] Instance ieee (M : Libm) : Double := {|
  double := PrimFloat.float;
  d_zero := 0%float;
  d_half := 0.5%float;
  d_one := 1%float;
  d_two := 2%float;
  d_pi := M_PI;
  d_add := PrimFloat.add;
  d_sub := PrimFloat.sub;
  d_mul := PrimFloat.mul;
  d_div := PrimFloat.div;
  d_neg := PrimFloat.opp;
  d_gt := fun x y => PrimFloat.ltb y x;
  d_of_uint32 := fun n => PrimFloat.of_uint63 (Uint63.of_Z n);
  d_sqrt := PrimFloat.sqrt;
  d_exp := c_exp;
  d_log := c_log;
  d_cos := c_cos;
  d_erf := c_erf
|}.

(** The least libm: it answers the values listed in [AnnexF] and NaN
    everywhere else, so whatever is computed with it rests on those values
    alone. *)
Definition annexF_libm : Libm := {|
  c_exp := fun x => if PrimFloat.is_zero x then 1%float else PrimFloat.nan;
  c_log := fun x =>
    if PrimFloat.is_zero x then PrimFloat.neg_infinity
    else if PrimFloat.eqb x 1 then 0%float else PrimFloat.nan;
  c_cos := fun x => if PrimFloat.is_zero x then 1%float else PrimFloat.nan;
  c_erf := fun x =>
    if PrimFloat.eqb x PrimFloat.infinity then 1%float
    else if PrimFloat.eqb x PrimFloat.neg_infinity then (-1)%float
    else PrimFloat.nan
|}.

(** ** The formulas as the specification writes them *)

Module Spec.

(** [S0 * exp((r - sigma^2/2) T + sigma sqrt(T) Z)]. *)
Definition terminal_price (S0 r sigma T Z : R) : R :=
  S0 * exp ((r - sigma ^ 2 / 2) * T + sigma * sqrt T * Z).

(** [Phi(x) = 0.5 (1 + erf(x / sqrt 2))]. *)
Definition Phi (x : R) : R := 5 / 10 * (1 + erf (x / sqrt 2)).

Definition d1 (S0 K r sigma T : R) : R :=
  (ln (S0 / K) + (r + sigma ^ 2 / 2) * T) / (sigma * sqrt T).

Definition d2 (S0 K r sigma T : R) : R :=
  d1 S0 K r sigma T - sigma * sqrt T.

(** [S0 Phi(d1) - K exp(-rT) Phi(d2)]. *)
Definition black_scholes_call (S0 K r sigma T : R) : R :=
  S0 * Phi (d1 S0 K r sigma T) - K * exp (- (r * T)) * Phi (d2 S0 K r sigma T).

Definition sum_of (l : list R) : R := fold_right Rplus 0 l.

(** [exp(-rT) * (1/n) * sum of the payoffs]. *)
Definition discounted_mean (r T : R) (n : Z) (payoffs : list R) : R :=
  exp (- (r * T)) * (1 / IZR n * sum_of payoffs).

End Spec.

(** ** Terminal prices *)

Section TerminalPrices.
Context {D : Double}.

(** The terminal prices of [n] successive paths, the values that
    [simulate_gbm] returns to the loop of [price_european_call_mc]. *)
Definition terminal_prices (S0 r sigma T : double) (n : nat) (st : Z)
  : list double :=
  fst (replicate_rng n (simulate_gbm S0 r sigma T) st).

End TerminalPrices.

Local Open Scope Z_scope.

(** ** The callers: [src/main.c] and [tests/test_real_stocks.c] *)

(** The operations on [double] that only the callers use. *)
Class DoubleReport (D : Double) : Type := {
  d_fabs : double -> double;
  d_lt : double -> double -> bool;         (* x < y *)
  d_of_int : Z -> double;                  (* (double)n for an int n *)
  d_100 : double;                          (* 100.0 *)
  d_365 : double                           (* 365.0 *)
}.

#[export] Instance ideal_report : DoubleReport ideal := {|
  d_fabs := Rabs;
  d_lt := fun x y => if Rlt_dec x y then true else false;
  d_of_int := IZR;
  d_100 := 100%R;
  d_365 := 365%R
|}.

#[export] Instance ieee_report (M : Libm) : DoubleReport (ieee M) :=
  @Build_DoubleReport (ieee M)
    PrimFloat.abs
    PrimFloat.ltb
    (fun n =>
       if (0 <=? n)%Z then PrimFloat.of_uint63 (Uint63.of_Z n)
       else PrimFloat.opp (PrimFloat.of_uint63 (Uint63.of_Z (- n))))
    100%float
    365%float.

Section Callers.
Context {D : Double} {DR : DoubleReport D}.
Local Open Scope double_scope.

(** [main] and [test_option]: the error of the estimate, in percent of the
    analytic price. *)
Definition error_pct (mc_price bs_price : double) : double :=
  (mc_price - bs_price) / bs_price * d_100.

(** The test [fabs(err) < 1.0] of [main] and of the summary loop. *)
Definition within_one_percent (err : double) : bool :=
  d_lt (d_fabs err) d_one.

Definition days_to_years (days : Z) : double := d_of_int days / d_365.

Record OptionData : Type := {
  ticker : String.string;
  opt_S0 : double;
  opt_K : double;
  opt_r : double;
  opt_sigma : double;
  days_to_expiry : Z;
  market_price : double
}.

(** The state that [test_option] seeds: [rng_seed(g_seed + test_num)], the
    sum taken in [uint32_t]. *)
Definition test_seed (g_seed test_num : Z) : Z :=
  rng_seed (wrap32 (g_seed + test_num)).

(** [test_option], its value and its effect on the generator; the table row
    it prints is left out. *)
Definition test_option (g_seed : Z) (opt : OptionData) (n_sim test_num : Z)
  : rng double :=
  fun _ =>
    let T := days_to_years (days_to_expiry opt) in
    let st := rng_seed (wrap32 (g_seed + test_num)) in
    let (mc_price, st') :=
      price_european_call_mc (opt_S0 opt) (opt_K opt) (opt_r opt)
        (opt_sigma opt) T n_sim st in
    let bs_price :=
      price_european_call_bs (opt_S0 opt) (opt_K opt) (opt_r opt)
        (opt_sigma opt) T in
    let mc_bs_error := (mc_price - bs_price) / bs_price * d_100 in
    (mc_bs_error, st').

(** [parse_csv_line]: [Some opt] when it returns 1.  The conversion is
    [sscanf]'s: the number of fields it assigned and the record it filled. *)
Definition parse_csv_line (sscanf : String.string -> nat * OptionData)
  (line : String.string) : option OptionData :=
  match line with
  | String.EmptyString => None
  | String.String c _ =>
      if Ascii.eqb c (Ascii.ascii_of_nat 35)          (* '#' *)
         || Ascii.eqb c (Ascii.ascii_of_nat 10)       (* '\n' *)
         || Ascii.eqb c (Ascii.ascii_of_nat 0)        (* '\0' *)
      then None
      else
        let (parsed, opt) := sscanf line in
        if Nat.eqb parsed 7 then Some opt else None
  end.

(** The counters of the summary loop of the test driver. *)
Record Summary : Type := {
  total : Z;
  within_1pct : Z;
  total_error : double
}.

(** [n++] on an [int]: the 32-bit two's-complement successor.  C leaves the
    step from [INT_MAX] undefined; the usual targets wrap to [INT_MIN], and
    that is what is written here. *)
Definition int_succ (n : Z) : Z := (n + 1 + 2 ^ 31) mod 2 ^ 32 - 2 ^ 31.

(** One turn of the [while (fgets ...)] loop. *)
Definition summary_step (g_seed n_sim : Z)
  (sscanf : String.string -> nat * OptionData)
  (acc : Summary) (line : String.string) : rng Summary :=
  match parse_csv_line sscanf line with
  | Some opt =>
      err <- test_option g_seed opt n_sim (total acc) ;;
      ret {| total := int_succ (total acc);
             within_1pct :=
               if within_one_percent err then int_succ (within_1pct acc)
               else within_1pct acc;
             total_error := total_error acc + d_fabs err |}
  | None => ret acc
  end.

Fixpoint summary_loop (g_seed n_sim : Z)
  (sscanf : String.string -> nat * OptionData)
  (lines : list String.string) (acc : Summary) : rng Summary :=
  match lines with
  | [] => ret acc
  | line :: rest =>
      acc' <- summary_step g_seed n_sim sscanf acc line ;;
      summary_loop g_seed n_sim sscanf rest acc'
  end.

Definition summary_start : Summary :=
  {| total := 0; within_1pct := 0; total_error := d_zero |}.

(** The lines that [parse_csv_line] accepts. *)
Definition accepted (sscanf : String.string -> nat * OptionData)
  (line : String.string) : bool :=
  match parse_csv_line sscanf line with
  | Some _ => true
  | None => false
  end.

End Callers.

(** * Part II: properties *)

(** ** The generator on 32-bit integers *)

Local Open Scope Z_scope.

Create HintDb uint32 discriminated.

Lemma wrap32_uint32 (z : Z) : is_uint32 (wrap32 z).
Proof. unfold is_uint32, wrap32. apply Z.mod_pos_bound. lia. Qed.

Lemma lxor_uint32 (a b : Z) :
  is_uint32 a -> is_uint32 b -> is_uint32 (Z.lxor a b).
Proof.
  unfold is_uint32. intros [Ha0 Ha] [Hb0 Hb].
  assert (H0 : 0 <= Z.lxor a b) by (apply Z.lxor_nonneg; tauto).
  split; [exact H0 | ].
  destruct (Z.eq_dec (Z.lxor a b) 0) as [E | E]; [rewrite E; lia | ].
  apply Z.log2_lt_pow2; [lia | ].
  pose proof (Z.log2_lxor a b Ha0 Hb0) as Hl.
  assert (La : Z.log2 a < 32).
  { destruct (Z.eq_dec a 0) as [-> | Na]; [cbn; lia | ].
    apply Z.log2_lt_pow2; lia. }
  assert (Lb : Z.log2 b < 32).
  { destruct (Z.eq_dec b 0) as [-> | Nb]; [cbn; lia | ].
    apply Z.log2_lt_pow2; lia. }
  lia.
Qed.

Lemma shiftr_uint32 (x n : Z) :
  0 <= n -> is_uint32 x -> is_uint32 (Z.shiftr x n).
Proof.
  unfold is_uint32. intros Hn [H0 H]. rewrite Z.shiftr_div_pow2 by exact Hn.
  assert (Hp : 0 < 2 ^ n) by (apply Z.pow_pos_nonneg; lia).
  split; [apply Z.div_pos; lia | ].
  apply Z.le_lt_trans with x; [ | exact H].
  apply Z.div_le_upper_bound; [exact Hp | nia].
Qed.

#[local] Hint Resolve wrap32_uint32 lxor_uint32 : uint32.
#[local] Hint Extern 1 (is_uint32 (Z.shiftr _ _)) =>
  apply shiftr_uint32; [lia | ] : uint32.

(** [x ^= x << k] cannot clear a nonzero [x]: [x = x * 2^k] modulo [2^32]
    makes [2^32] divide [x * (2^k - 1)], and [2^k - 1] is odd. *)
Lemma xor_shiftl_nonzero (x k : Z) :
  0 < k -> Z.gcd (2 ^ 32) (2 ^ k - 1) = 1 ->
  is_uint32 x -> x <> 0 -> Z.lxor x (wrap32 (Z.shiftl x k)) <> 0.
Proof.
  unfold is_uint32, wrap32. intros Hk Hodd [H0 H] Hx E.
  apply Z.lxor_eq in E.
  rewrite Z.shiftl_mul_pow2 in E by lia.
  assert (Hdiv : (2 ^ 32 | (2 ^ k - 1) * x)).
  { exists ((x * 2 ^ k) / 2 ^ 32).
    pose proof (Z.div_mod (x * 2 ^ k) (2 ^ 32)) as Hdm.
    rewrite <- E in Hdm. lia. }
  apply Z.gauss in Hdiv; [ | exact Hodd].
  destruct Hdiv as [q Hq]. nia.
Qed.

(** [x ^= x >> k] cannot clear a nonzero [x]: the shifted value is smaller. *)
Lemma xor_shiftr_nonzero (x k : Z) :
  0 < k -> is_uint32 x -> x <> 0 -> Z.lxor x (Z.shiftr x k) <> 0.
Proof.
  unfold is_uint32. intros Hk [H0 H] Hx E.
  apply Z.lxor_eq in E.
  rewrite Z.shiftr_div_pow2 in E by lia.
  assert (Hlt : x / 2 ^ k < x).
  { apply Z.div_lt; [lia | ].
    apply Z.pow_gt_1; lia. }
  lia.
Qed.

Lemma xorshift32_step_uint32 (x : Z) :
  is_uint32 x -> is_uint32 (xorshift32_step x).
Proof. intros Hx. unfold xorshift32_step. auto 8 with uint32. Qed.

Lemma xorshift32_step_nonzero (x : Z) :
  is_uint32 x -> x <> 0 -> xorshift32_step x <> 0.
Proof.
  intros Hx Nx. unfold xorshift32_step.
  set (a := Z.lxor x (wrap32 (Z.shiftl x 13))).
  assert (Ha : is_uint32 a) by (subst a; auto with uint32).
  assert (Na : a <> 0)
    by (apply xor_shiftl_nonzero; [lia | reflexivity | exact Hx | exact Nx]).
  set (b := Z.lxor a (Z.shiftr a 17)).
  assert (Hb : is_uint32 b) by (subst b; auto with uint32).
  assert (Nb : b <> 0) by (apply xor_shiftr_nonzero; [lia | exact Ha | exact Na]).
  apply xor_shiftl_nonzero; [lia | reflexivity | exact Hb | exact Nb].
Qed.

Lemma rng_seed_live (seed : Z) : is_uint32 seed -> live_state (rng_seed seed).
Proof.
  unfold live_state, rng_seed, is_uint32. intros H.
  destruct (Z.eqb_spec seed 0) as [-> | N]; lia.
Qed.

Lemma xorshift32_step_live (st : Z) :
  live_state st -> live_state (xorshift32_step st).
Proof.
  intros [H N]. split.
  - apply xorshift32_step_uint32, H.
  - apply xorshift32_step_nonzero; assumption.
Qed.

Lemma advance_live (n : nat) (st : Z) :
  live_state st -> live_state (advance n st).
Proof.
  revert st. induction n as [ | n IH]; intros st H; cbn.
  - exact H.
  - apply IH, xorshift32_step_live, H.
Qed.

Lemma advance_add (n m : nat) (st : Z) :
  advance (n + m) st = advance m (advance n st).
Proof.
  revert st. induction n as [ | n IH]; intros st; cbn; [reflexivity | apply IH].
Qed.

(** Why [rng_seed] replaces a zero seed: from the zero state the generator
    never leaves zero. *)
Lemma advance_zero (n : nat) : advance n 0 = 0.
Proof. induction n as [ | n IH]; [reflexivity | exact IH]. Qed.

(** ** What each sampling function does to the state, over any [double] *)

Section Runs.
Context {D : Double}.
Local Open Scope double_scope.

Lemma random_double_run (st : Z) :
  random_double st = (uniform_of (xorshift32_step st), advance 1 st).
Proof. reflexivity. Qed.

Lemma normal_random_run (st : Z) :
  normal_random st =
  (box_muller (uniform_of (advance 1 st)) (uniform_of (advance 2 st)),
   advance 2 st).
Proof. reflexivity. Qed.

Lemma simulate_gbm_run (S0 r sigma T : double) (st : Z) :
  simulate_gbm S0 r sigma T st =
  (let Z := fst (normal_random st) in
   S0 * d_exp ((r - d_half * sigma * sigma) * T + sigma * d_sqrt T * Z),
   snd (normal_random st)).
Proof. reflexivity. Qed.

Lemma payoff_draw_state (S0 K r sigma T : double) (st : Z) :
  snd (payoff_draw S0 K r sigma T st) = advance 2 st.
Proof. reflexivity. Qed.

Lemma replicate_rng_state {A : Type} (c : rng A) (k : nat) :
  (forall st, snd (c st) = advance k st) ->
  forall n st, snd (replicate_rng n c st) = advance (n * k) st.
Proof.
  intros Hc. induction n as [ | n IH]; intros st; cbn; [reflexivity | ].
  unfold bind. specialize (Hc st). destruct (c st) as [a st1]. cbn in Hc.
  specialize (IH st1). destruct (replicate_rng n c st1) as [l st2]. cbn in *.
  rewrite advance_add. subst. reflexivity.
Qed.

(** The loop adds the payoffs of [n] successive paths to its accumulator,
    left to right. *)
Lemma mc_loop_fold (S0 K r sigma T : double) (n : nat) :
  forall (payoff_sum : double) (st : Z),
    mc_loop S0 K r sigma T n payoff_sum st =
    (fold_left d_add
       (fst (replicate_rng n (payoff_draw S0 K r sigma T) st)) payoff_sum,
     snd (replicate_rng n (payoff_draw S0 K r sigma T) st)).
Proof.
  assert (Hc : forall st, payoff_draw S0 K r sigma T st =
               let (ST, st1) := simulate_gbm S0 r sigma T st in
               (call_payoff ST K, st1)) by reflexivity.
  set (c := payoff_draw S0 K r sigma T) in *.
  induction n as [ | n IH]; intros acc st; [reflexivity | ].
  cbn [mc_loop replicate_rng]. unfold bind, ret. rewrite Hc.
  destruct (simulate_gbm S0 r sigma T st) as [ST st1].
  rewrite IH. destruct (replicate_rng n c st1) as [l st2].
  reflexivity.
Qed.

(** In every arithmetic the estimator divides the accumulated sum by
    [n_sim] first and multiplies the quotient by the discount factor
    afterwards, and it takes [2 * n_sim] generator outputs. *)
Lemma price_european_call_mc_run (S0 K r sigma T : double) (n_sim st : Z) :
  price_european_call_mc S0 K r sigma T n_sim st =
  (let payoffs :=
     fst (replicate_rng (Z.to_nat n_sim) (payoff_draw S0 K r sigma T) st) in
   fold_left d_add payoffs d_zero / d_of_uint32 n_sim * d_exp (- r * T),
   advance (Z.to_nat n_sim * 2) st).
Proof.
  unfold price_european_call_mc, bind. rewrite mc_loop_fold. cbn [ret].
  rewrite <- (replicate_rng_state (payoff_draw S0 K r sigma T) 2
                (payoff_draw_state S0 K r sigma T)).
  reflexivity.
Qed.

End Runs.

(** ** Seeding *)

(** C8. Seeding with 0 stores the same state as seeding with 1, so every
    sequence of draws that follows, uniform or normal, of any length and over
    any [double], is the same after [rng_seed 0] as after [rng_seed 1],
    together with the state it leaves. *)
Theorem rng_seed_zero_is_one :
  rng_seed 0 = rng_seed 1 /\
  forall (D : Double) (n : nat),
    replicate_rng n random_double (rng_seed 0) =
    replicate_rng n random_double (rng_seed 1) /\
    replicate_rng n normal_random (rng_seed 0) =
    replicate_rng n normal_random (rng_seed 1).
Proof.
  assert (E : rng_seed 0 = rng_seed 1) by reflexivity.
  split; [exact E | ]. intros D n. rewrite E. split; reflexivity.
Qed.

(** ** The uniform draw on the reals *)

Section UniformIdeal.
Local Open Scope R_scope.

Lemma uniform_of_ideal (x : Z) :
  uniform_of (D := ideal) x = IZR x / (2 ^ 32 - 1).
Proof. unfold uniform_of, UINT32_MAX. cbn. f_equal. lra. Qed.

Lemma uniform_of_positive (x : Z) :
  (1 <= x)%Z -> 1 / (2 ^ 32 - 1) <= uniform_of (D := ideal) x.
Proof.
  intros Hx. rewrite uniform_of_ideal. apply IZR_le in Hx.
  unfold Rdiv. apply Rmult_le_compat_r; [ | exact Hx].
  apply Rlt_le, Rinv_0_lt_compat. lra.
Qed.

Lemma uniform_of_at_most_one (x : Z) :
  is_uint32 x -> uniform_of (D := ideal) x <= 1.
Proof.
  intros [_ Hx]. rewrite uniform_of_ideal.
  assert (Hx' : (x <= 4294967295)%Z) by lia.
  apply IZR_le in Hx'.
  apply Rmult_le_reg_r with (2 ^ 32 - 1); [lra | ].
  unfold Rdiv. rewrite Rmult_assoc, Rinv_l by lra. lra.
Qed.

Lemma smallest_uniform_positive : 0 < 1 / (2 ^ 32 - 1).
Proof. apply Rdiv_lt_0_compat; lra. Qed.

End UniformIdeal.

(** C10. Whatever 32-bit seed [rng_seed] receives, the state it stores and
    every state reached from it by any number of [xorshift32] steps is
    nonzero, and so is the next generator output; hence the uniform that
    [random_double] returns there is at least [1 / (2^32 - 1)], strictly
    positive, and the [u1] that [normal_random] passes to [log] is strictly
    positive. *)
Theorem seeded_state_stays_nonzero (seed : Z) (n : nat) :
  is_uint32 seed ->
  let st := advance n (rng_seed seed) in
  st <> 0 /\
  xorshift32_step st <> 0 /\
  (1 / (2 ^ 32 - 1) <= fst (random_double (D := ideal) st))%R /\
  (0 < fst (random_double (D := ideal) st))%R /\
  (0 < normal_random_u1 (D := ideal) st)%R.
Proof.
  intros Hseed st.
  assert (Hst : live_state st) by (apply advance_live, rng_seed_live, Hseed).
  destruct (xorshift32_step_live st Hst) as [[Hlo _] Hnz].
  assert (Hu : (1 / (2 ^ 32 - 1)
                <= uniform_of (D := ideal) (xorshift32_step st))%R)
    by (apply uniform_of_positive; lia).
  pose proof smallest_uniform_positive as Hpos.
  unfold normal_random_u1. rewrite random_double_run. cbn [fst].
  repeat split; try tauto; try lra. apply Hst.
Qed.

Lemma seeded_state_stays_nonzero_witness :
  is_uint32 123456 /\
  (let st := advance 5 (rng_seed 123456) in
   st <> 0 /\
   xorshift32_step st <> 0 /\
   (1 / (2 ^ 32 - 1) <= fst (random_double (D := ideal) st))%R /\
   (0 < fst (random_double (D := ideal) st))%R /\
   (0 < normal_random_u1 (D := ideal) st)%R).
Proof.
  split.
  - unfold is_uint32. lia.
  - apply (seeded_state_stays_nonzero 123456 5). unfold is_uint32. lia.
Defined.

(** C3, at the state whose successor is [0xFFFFFFFF], the state that
    [rng_seed(1584200935)] stores: it is a nonzero 32-bit state, the
    generator output is [UINT32_MAX], and [random_double] returns exactly 1,
    on the reals and in binary64 alike, not a value below 1. *)
Theorem random_double_returns_one :
  rng_seed 1584200935 = 1584200935 /\
  live_state 1584200935 /\
  xorshift32_step 1584200935 = UINT32_MAX /\
  fst (random_double (D := ideal) 1584200935) = 1%R /\
  forall M : Libm, fst (random_double (D := ieee M) 1584200935) = 1%float.
Proof.
  split; [reflexivity | split; [ | split; [ | split]]].
  - split; [unfold is_uint32; lia | discriminate].
  - reflexivity.
  - rewrite random_double_run. cbn [fst].
    replace (xorshift32_step 1584200935) with UINT32_MAX by reflexivity.
    rewrite uniform_of_ideal. unfold UINT32_MAX, Rdiv.
    replace (2 ^ 32 - 1)%R with 4294967295%R by lra.
    apply Rinv_r. lra.
  - intros M. reflexivity.
Qed.

(** What does hold of the range: from a nonzero 32-bit state the draw lies in
    the interval (0, 1], closed at 1. *)
Lemma random_double_range (st : Z) :
  live_state st ->
  (0 < fst (random_double (D := ideal) st) <= 1)%R.
Proof.
  intros Hst. destruct (xorshift32_step_live st Hst) as [Hu Hnz].
  rewrite random_double_run. cbn [fst]. split.
  - apply Rlt_le_trans with (1 / (2 ^ 32 - 1))%R.
    + apply smallest_uniform_positive.
    + apply uniform_of_positive. unfold is_uint32 in Hu. lia.
  - apply uniform_of_at_most_one, Hu.
Qed.

(** ** Payoffs and pricing formulas on the reals *)

Section FormulasIdeal.
Local Open Scope R_scope.

Lemma call_payoff_ideal (S K : R) :
  call_payoff (D := ideal) S K = Rmax (S - K) 0.
Proof.
  unfold call_payoff. cbn. unfold Rmax.
  destruct (Rgt_dec S K), (Rle_dec (S - K) 0); lra.
Qed.

Lemma put_payoff_ideal (S K : R) :
  put_payoff (D := ideal) S K = Rmax (K - S) 0.
Proof.
  unfold put_payoff. cbn. unfold Rmax.
  destruct (Rgt_dec K S), (Rle_dec (K - S) 0); lra.
Qed.

(** C9. For all real [S] and [K] the call payoff minus the put payoff is
    [S - K], and their sum is [|S - K|]. *)
Theorem payoff_parity (S K : R) :
  call_payoff (D := ideal) S K - put_payoff (D := ideal) S K = S - K /\
  call_payoff (D := ideal) S K + put_payoff (D := ideal) S K = Rabs (S - K).
Proof.
  unfold call_payoff, put_payoff. cbn. unfold Rabs.
  destruct (Rgt_dec S K), (Rgt_dec K S), (Rcase_abs (S - K)); split; lra.
Qed.

Lemma normal_cdf_ideal (x : R) : normal_cdf (D := ideal) x = Spec.Phi x.
Proof. reflexivity. Qed.

(** C6. [simulate_gbm] runs [normal_random] once, for a value [Z] and the
    state after it (two generator steps on), and returns
    [S0 * exp((r - sigma^2/2) T + sigma sqrt(T) Z)] in that state. *)
Theorem simulate_gbm_closed_form (S0 r sigma T : R) (st : Z) :
  simulate_gbm (D := ideal) S0 r sigma T st =
  (Spec.terminal_price S0 r sigma T (fst (normal_random (D := ideal) st)),
   snd (normal_random (D := ideal) st)) /\
  snd (simulate_gbm (D := ideal) S0 r sigma T st) = advance 2 st.
Proof.
  split; [ | reflexivity].
  rewrite simulate_gbm_run. cbv zeta. f_equal.
  unfold Spec.terminal_price. cbn. f_equal. f_equal. lra.
Qed.

(** C5. For positive [S0], [K], [sigma] and [T] the analytic pricer
    returns [S0 Phi(d1) - K exp(-rT) Phi(d2)] with
    [d1 = (ln(S0/K) + (r + sigma^2/2) T) / (sigma sqrt T)],
    [d2 = d1 - sigma sqrt T] and [Phi(x) = 0.5 (1 + erf(x / sqrt 2))]. *)
Theorem price_european_call_bs_formula (S0 K r sigma T : R) :
  S0 > 0 -> K > 0 -> sigma > 0 -> T > 0 ->
  price_european_call_bs (D := ideal) S0 K r sigma T =
  Spec.black_scholes_call S0 K r sigma T.
Proof.
  intros _ _ _ _.
  unfold price_european_call_bs, Spec.black_scholes_call, Spec.d2, Spec.d1.
  cbv zeta. rewrite !normal_cdf_ideal. cbn.
  replace (r + 5 / 10 * sigma * sigma) with (r + sigma ^ 2 / 2) by lra.
  replace (- r * T) with (- (r * T)) by lra.
  reflexivity.
Qed.

Lemma price_european_call_bs_formula_witness :
  100 > 0 /\ 100 > 0 /\ 2 / 10 > 0 /\ 1 > 0 /\
  price_european_call_bs (D := ideal) 100 100 (5 / 100) (2 / 10) 1 =
  Spec.black_scholes_call 100 100 (5 / 100) (2 / 10) 1.
Proof.
  repeat (split; [lra | ]).
  apply (price_european_call_bs_formula 100 100 (5 / 100) (2 / 10) 1); lra.
Defined.

Lemma fold_left_Rplus (l : list R) (acc : R) :
  fold_left Rplus l acc = acc + Spec.sum_of l.
Proof.
  revert acc. induction l as [ | x l IH]; intros acc; cbn.
  - lra.
  - rewrite IH. unfold Spec.sum_of. lra.
Qed.

(** C4. For valid parameters and at least one simulation, from any
    generator state, the estimator returns [exp(-rT) * (1/n_sim) * sum],
    the sum running over the payoffs [call_payoff (simulate_gbm ...) K] of
    [n_sim] successive draws, and leaves the generator [2 * n_sim] steps on.
    The division by [n_sim] comes before the multiplication by the discount
    factor: in every arithmetic for [double], binary64 included, the value
    is the quotient of the left-to-right sum by [n_sim], multiplied by
    [exp(-r * T)] afterwards. *)
Theorem price_european_call_mc_mean (S0 K r sigma T : R) (n_sim st : Z) :
  S0 > 0 -> K > 0 -> T >= 0 -> sigma >= 0 -> (1 <= n_sim)%Z ->
  let payoffs :=
    fst (replicate_rng (Z.to_nat n_sim)
           (ST <- simulate_gbm (D := ideal) S0 r sigma T ;;
            ret (call_payoff (D := ideal) ST K)) st) in
  price_european_call_mc (D := ideal) S0 K r sigma T n_sim st =
  (Spec.discounted_mean r T n_sim payoffs, advance (Z.to_nat n_sim * 2) st) /\
  fst (price_european_call_mc (D := ideal) S0 K r sigma T n_sim st) =
  Spec.sum_of payoffs / IZR n_sim * exp (- (r * T)) /\
  forall (D : Double) (S0' K' r' sigma' T' : @double D) (st' : Z),
    price_european_call_mc (D := D) S0' K' r' sigma' T' n_sim st' =
    (d_mul
       (d_div
          (fold_left d_add
             (fst (replicate_rng (Z.to_nat n_sim)
                     (ST <- simulate_gbm S0' r' sigma' T' ;;
                      ret (call_payoff ST K')) st'))
             d_zero)
          (d_of_uint32 n_sim))
       (d_exp (d_mul (d_neg r') T')),
     advance (Z.to_nat n_sim * 2) st').
Proof.
  intros _ _ _ _ Hn payoffs.
  assert (Hn' : IZR n_sim <> 0) by (apply not_0_IZR; lia).
  assert (Hreal :
    price_european_call_mc (D := ideal) S0 K r sigma T n_sim st =
    (Spec.discounted_mean r T n_sim payoffs, advance (Z.to_nat n_sim * 2) st)
    /\
    fst (price_european_call_mc (D := ideal) S0 K r sigma T n_sim st) =
    Spec.sum_of payoffs / IZR n_sim * exp (- (r * T))).
  { rewrite price_european_call_mc_run. cbv zeta.
    fold (payoff_draw (D := ideal) S0 K r sigma T) in payoffs. fold payoffs.
    cbn. rewrite fold_left_Rplus.
    replace (- r * T) with (- (r * T)) by lra.
    split; [f_equal; unfold Spec.discounted_mean; field; exact Hn' | ].
    f_equal. lra. }
  destruct Hreal as [H1 H2].
  split; [exact H1 | split; [exact H2 | ]].
  intros D S0' K' r' sigma' T' st'.
  apply (price_european_call_mc_run (D := D)).
Qed.

Lemma price_european_call_mc_mean_witness :
  100 > 0 /\ 100 > 0 /\ 1 >= 0 /\ 2 / 10 >= 0 /\ (1 <= 3)%Z /\
  (let payoffs :=
     fst (replicate_rng (Z.to_nat 3)
            (ST <- simulate_gbm (D := ideal) 100 (5 / 100) (2 / 10) 1 ;;
             ret (call_payoff (D := ideal) ST 100)) (rng_seed 123456)) in
   price_european_call_mc (D := ideal) 100 100 (5 / 100) (2 / 10) 1 3
     (rng_seed 123456) =
   (Spec.discounted_mean (5 / 100) 1 3 payoffs,
    advance (Z.to_nat 3 * 2) (rng_seed 123456)) /\
   fst (price_european_call_mc (D := ideal) 100 100 (5 / 100) (2 / 10) 1 3
          (rng_seed 123456)) =
   Spec.sum_of payoffs / IZR 3 * exp (- (5 / 100 * 1)) /\
   forall (D : Double) (S0' K' r' sigma' T' : @double D) (st' : Z),
     price_european_call_mc (D := D) S0' K' r' sigma' T' 3 st' =
     (d_mul
        (d_div
           (fold_left d_add
              (fst (replicate_rng (Z.to_nat 3)
                      (ST <- simulate_gbm S0' r' sigma' T' ;;
                       ret (call_payoff ST K')) st'))
              d_zero)
           (d_of_uint32 3))
        (d_exp (d_mul (d_neg r') T')),
      advance (Z.to_nat 3 * 2) st')).
Proof.
  repeat (split; [lra || lia | ]).
  apply (price_european_call_mc_mean 100 100 (5 / 100) (2 / 10) 1 3
           (rng_seed 123456)); lra || lia.
Defined.

(** In binary64 the order is observable: a sum of 1 over 10 paths with
    discount factor 3 gives 0.30000000000000004 when divided first and 0.3
    when multiplied first. *)
Example division_before_discount_observable :
  PrimFloat.eqb (1 / 10 * 3)%float (1 * 3 / 10)%float = false.
Proof. reflexivity. Qed.

End FormulasIdeal.

(** ** Binary64: zeros, NaN and the infinities *)

Section Binary64.
Local Open Scope float_scope.

Lemma is_zero_cases (x : float) : is_zero x = true -> x = 0 \/ x = -0.
Proof.
  unfold is_zero. rewrite FloatAxioms.eqb_spec. intros H.
  destruct (Prim2SF x) as [s | s | | s m e] eqn:E; cbn in H;
    try discriminate; try (destruct s; discriminate).
  destruct s; [right | left]; apply Prim2SF_inj; rewrite E; reflexivity.
Qed.

Lemma annexF_libm_ok : AnnexF annexF_libm.
Proof.
  split; try reflexivity; intros x Hx;
    destruct (is_zero_cases x Hx) as [-> | ->]; reflexivity.
Qed.

Lemma nan_of_spec (x : float) : Prim2SF x = S754_nan -> x = nan.
Proof. intros E. apply Prim2SF_inj. rewrite E. reflexivity. Qed.

(** An operation with a NaN operand: pass to the specification, where the
    NaN case is decided by the shape of the other operand alone. *)
Ltac nan_operand spec :=
  apply nan_of_spec; rewrite spec; change (Prim2SF nan) with S754_nan;
  match goal with
  | |- context [Prim2SF ?y] => destruct (Prim2SF y)
  end; reflexivity.

(** A zero operand: the two zeros, as shapes of the specification. *)
Ltac zero_operand z Hz :=
  destruct (is_zero_cases z Hz) as [-> | ->];
  [change (Prim2SF 0) with (S754_zero false)
  | change (Prim2SF (-0)) with (S754_zero true)].

Lemma mul_nan_l (y : float) : nan * y = nan.
Proof. nan_operand mul_spec. Qed.

Lemma mul_nan_r (x : float) : x * nan = nan.
Proof. nan_operand mul_spec. Qed.

Lemma sub_nan_l (y : float) : nan - y = nan.
Proof. nan_operand sub_spec. Qed.

Lemma sub_nan_r (x : float) : x - nan = nan.
Proof. nan_operand sub_spec. Qed.

Lemma div_nan_r (x : float) : x / nan = nan.
Proof. nan_operand div_spec. Qed.

(** A quotient by a zero is an infinity or NaN, never a finite number. *)
Lemma div_by_zero (x z : float) :
  is_zero z = true ->
  x / z = infinity \/ x / z = neg_infinity \/ x / z = nan.
Proof.
  intros Hz.
  assert (E : Prim2SF (x / z) = S754_infinity false \/
              Prim2SF (x / z) = S754_infinity true \/
              Prim2SF (x / z) = S754_nan).
  { rewrite div_spec. zero_operand z Hz;
      destruct (Prim2SF x) as [s | s | | s m e];
      try destruct s; cbn; tauto. }
  destruct E as [E | [E | E]]; [left | right; left | right; right];
    apply Prim2SF_inj; rewrite E; reflexivity.
Qed.

Lemma zero_or_nan_of_spec (x : float) :
  (exists s, Prim2SF x = S754_zero s) \/ Prim2SF x = S754_nan ->
  is_zero x = true \/ x = nan.
Proof.
  intros [[s E] | E]; [left | right; apply nan_of_spec, E].
  unfold is_zero. rewrite FloatAxioms.eqb_spec, E. destruct s; reflexivity.
Qed.

(** A product with a zero factor is a zero or NaN. *)
Lemma mul_zero_l (z y : float) :
  is_zero z = true -> is_zero (z * y) = true \/ z * y = nan.
Proof.
  intros Hz. apply zero_or_nan_of_spec. rewrite mul_spec.
  zero_operand z Hz; destruct (Prim2SF y) as [s | s | | s m e]; cbn; eauto.
Qed.

Lemma mul_zero_r (x z : float) :
  is_zero z = true -> is_zero (x * z) = true \/ x * z = nan.
Proof.
  intros Hz. apply zero_or_nan_of_spec. rewrite mul_spec.
  zero_operand z Hz; destruct (Prim2SF x) as [s | s | | s m e]; cbn; eauto.
Qed.

Lemma sqrt_zero (z : float) :
  is_zero z = true -> is_zero (PrimFloat.sqrt z) = true.
Proof.
  intros Hz. destruct (is_zero_cases z Hz) as [-> | ->]; reflexivity.
Qed.

End Binary64.

(** ** The pricers in binary64 *)

Section PricersIeee.
Context {M : Libm}.
Local Open Scope float_scope.

(** With no simulation the loop body is never entered, nothing is drawn,
    and the average is [0.0 / 0.0], whatever libm computes. *)
Lemma price_european_call_mc_zero (S0 K r sigma T : float) (st : Z) :
  price_european_call_mc (D := ieee M) S0 K r sigma T 0%Z st = (nan, st).
Proof.
  rewrite price_european_call_mc_run. cbn.
  change (0 / 0) with nan. rewrite mul_nan_l. reflexivity.
Qed.

Context {HM : AnnexF M}.

Lemma normal_cdf_infinity : normal_cdf (D := ieee M) infinity = 1.
Proof.
  unfold normal_cdf. cbn.
  change (infinity / PrimFloat.sqrt 2) with infinity.
  rewrite erf_infinity. reflexivity.
Qed.

Lemma normal_cdf_neg_infinity : normal_cdf (D := ieee M) neg_infinity = 0.
Proof.
  unfold normal_cdf. cbn.
  change (neg_infinity / PrimFloat.sqrt 2) with neg_infinity.
  rewrite erf_neg_infinity. reflexivity.
Qed.

Lemma normal_cdf_nan : normal_cdf (D := ieee M) nan = nan.
Proof.
  unfold normal_cdf. cbn.
  change (nan / PrimFloat.sqrt 2) with nan.
  rewrite erf_nan. reflexivity.
Qed.

(** From the zero state both uniforms are 0, [log] is applied to 0 and the
    sample is [+inf], with any libm that follows Annex F; the state stays
    zero. *)
Lemma normal_random_from_zero :
  normal_random (D := ieee M) rng_state_initial = (infinity, 0%Z).
Proof.
  rewrite normal_random_run. f_equal.
  unfold box_muller. cbn.
  rewrite cos_zero by reflexivity. rewrite log_zero by reflexivity.
  reflexivity.
Qed.

(** At the money on the expiry date, [S0 = K = 100], [r = 0.05],
    [sigma = 0.2], [T = 0], the price is NaN with any libm that follows
    Annex F: [log(1) = 0] makes [d1] the quotient [0.0 / 0.0]. *)
Lemma price_european_call_bs_expiry_any_libm :
  price_european_call_bs (D := ieee M) 100 100 0.05 0.2 0 = nan.
Proof.
  unfold price_european_call_bs, normal_cdf. cbn.
  rewrite log_one. cbn. rewrite erf_nan. cbn.
  rewrite exp_zero by reflexivity. reflexivity.
Qed.

Lemma bs_divisor_degenerate (sigma T : float) :
  is_zero sigma = true \/ is_zero T = true ->
  is_zero (bs_divisor (D := ieee M) sigma T) = true \/
  bs_divisor (D := ieee M) sigma T = nan.
Proof.
  unfold bs_divisor. cbn. intros [Hs | HT].
  - apply mul_zero_l, Hs.
  - apply mul_zero_r, sqrt_zero, HT.
Qed.

(** [d1] over a degenerate divisor: an infinity over a zero divisor, or
    NaN. *)
Lemma bs_d1_degenerate (S0 K r sigma T : float) :
  is_zero sigma = true \/ is_zero T = true ->
  let d1 := bs_d1 (D := ieee M) S0 K r sigma T in
  let divisor := bs_divisor (D := ieee M) sigma T in
  (d1 = infinity /\ is_zero divisor = true) \/
  (d1 = neg_infinity /\ is_zero divisor = true) \/
  d1 = nan.
Proof.
  intros H. cbv zeta. unfold bs_d1.
  destruct (bs_divisor_degenerate sigma T H) as [Hz | Hn].
  - cbn [d_div ieee].
    match goal with
    | |- context [ ?n / bs_divisor sigma T ] =>
        destruct (div_by_zero n _ Hz) as [E | [E | E]]; rewrite E
    end; tauto.
  - rewrite Hn. cbn [d_div ieee]. rewrite div_nan_r. tauto.
Qed.

End PricersIeee.

(** ** Invalid and degenerate arguments *)

Section Unguarded.
Local Open Scope float_scope.

(** C1, refuted at [S0 = K = 100], [r = 0], [sigma = 0.2], [T = 1],
    [n_sim = 0] after [rng_seed(123456)]: the call returns, its value is
    NaN, and the generator has not moved. *)
Lemma price_european_call_mc_zero_sims_nan :
  price_european_call_mc (D := ieee annexF_libm) 100 100 0 0.2 1 0%Z
    (rng_seed 123456) = (nan, rng_seed 123456).
Proof. reflexivity. Qed.

(** C1, as the code has it. The estimator checks none of its arguments and
    has no failing path: for every [S0], [K], [r], [sigma], [T], [n_sim] and
    state, valid or not, and with any libm, it returns
    [(payoff_sum / n_sim) * exp(-r * T)], the payoffs of [n_sim] successive
    paths summed left to right from [0.0], and leaves the generator
    [2 * n_sim] steps on; with [n_sim = 0] nothing is drawn and the value is
    NaN. *)
Theorem price_european_call_mc_unvalidated
  (M : Libm) (S0 K r sigma T : float) (n_sim st : Z) :
  price_european_call_mc (D := ieee M) S0 K r sigma T n_sim st =
  (fold_left PrimFloat.add
     (fst (replicate_rng (Z.to_nat n_sim)
             (payoff_draw (D := ieee M) S0 K r sigma T) st)) 0
   / of_uint63 (Uint63.of_Z n_sim) * c_exp (- r * T),
   advance (Z.to_nat n_sim * 2) st) /\
  price_european_call_mc (D := ieee M) S0 K r sigma T 0%Z st = (nan, st).
Proof.
  split.
  - apply (price_european_call_mc_run (D := ieee M)).
  - apply price_european_call_mc_zero.
Qed.

(** C2, refuted at the money on the expiry date, [S0 = K = 100],
    [r = 0.05], [sigma = 0.2], [T = 0]: [d1] is [0.0 / 0.0] and the price
    returned is NaN. *)
Lemma price_european_call_bs_expiry_nan :
  bs_d1 (D := ieee annexF_libm) 100 100 0.05 0.2 0 = nan /\
  price_european_call_bs (D := ieee annexF_libm) 100 100 0.05 0.2 0 = nan.
Proof. split; reflexivity. Qed.

(** The same with [sigma = 0] and a zero rate, one year from expiry. *)
Example price_european_call_bs_zero_vol_nan :
  price_european_call_bs (D := ieee annexF_libm) 100 100 0 0 1 = nan.
Proof. reflexivity. Qed.

(** C2, as the code has it. When [sigma == 0] or [T == 0] the analytic
    pricer neither fails nor branches: the divisor [sigma * sqrt(T)] of
    [d1] is a zero or NaN, so [d1] is [+inf], [-inf] or NaN, and the price
    returned is the formula at that [d1]: [S0 * 1 - K * exp(-rT) * 1],
    [S0 * 0 - K * exp(-rT) * 0], or NaN when [d1] is NaN. *)
Theorem price_european_call_bs_degenerate
  (M : Libm) (S0 K r sigma T : float) :
  AnnexF M ->
  is_zero sigma = true \/ is_zero T = true ->
  let d1 := bs_d1 (D := ieee M) S0 K r sigma T in
  let price := price_european_call_bs (D := ieee M) S0 K r sigma T in
  (is_zero (bs_divisor (D := ieee M) sigma T) = true \/
   bs_divisor (D := ieee M) sigma T = nan) /\
  ((d1 = infinity /\ price = S0 * 1 - K * c_exp (- r * T) * 1) \/
   (d1 = neg_infinity /\ price = S0 * 0 - K * c_exp (- r * T) * 0) \/
   (d1 = nan /\ price = nan)).
Proof.
  intros HM H d1 price.
  split; [apply bs_divisor_degenerate, H | ].
  assert (Hp : price =
               S0 * normal_cdf (D := ieee M) d1
               - K * c_exp (- r * T)
                 * normal_cdf (D := ieee M)
                     (d1 - bs_divisor (D := ieee M) sigma T))
    by reflexivity.
  destruct (bs_d1_degenerate S0 K r sigma T H) as [[E Hz] | [[E Hz] | E]];
    fold d1 in E; rewrite E in Hp.
  - left. split; [exact E | ]. rewrite Hp.
    destruct (is_zero_cases _ Hz) as [-> | ->];
      [change (infinity - 0) with infinity
      | change (infinity - -0) with infinity];
      rewrite normal_cdf_infinity; reflexivity.
  - right; left. split; [exact E | ]. rewrite Hp.
    destruct (is_zero_cases _ Hz) as [-> | ->];
      [change (neg_infinity - 0) with neg_infinity
      | change (neg_infinity - -0) with neg_infinity];
      rewrite normal_cdf_neg_infinity; reflexivity.
  - right; right. split; [exact E | ]. rewrite Hp.
    rewrite sub_nan_l, normal_cdf_nan, mul_nan_r, mul_nan_r.
    apply sub_nan_r.
Qed.

Lemma price_european_call_bs_degenerate_witness :
  AnnexF annexF_libm /\
  (is_zero 0.2 = true \/ is_zero 0 = true) /\
  (let d1 := bs_d1 (D := ieee annexF_libm) 100 100 0.05 0.2 0 in
   let price :=
     price_european_call_bs (D := ieee annexF_libm) 100 100 0.05 0.2 0 in
   (is_zero (bs_divisor (D := ieee annexF_libm) 0.2 0) = true \/
    bs_divisor (D := ieee annexF_libm) 0.2 0 = nan) /\
   ((d1 = infinity /\
     price = 100 * 1 - 100 * @c_exp annexF_libm (- 0.05 * 0) * 1) \/
    (d1 = neg_infinity /\
     price = 100 * 0 - 100 * @c_exp annexF_libm (- 0.05 * 0) * 0) \/
    (d1 = nan /\ price = nan))).
Proof.
  split; [exact annexF_libm_ok | ].
  split; [right; reflexivity | ].
  apply (price_european_call_bs_degenerate annexF_libm 100 100 0.05 0.2 0).
  - exact annexF_libm_ok.
  - right. reflexivity.
Defined.

End Unguarded.

(** ** The argument of [log] in [normal_random] *)

(** C7, refuted at the state of a process that has not called [rng_seed]:
    the first uniform is exactly 0, on the reals and in binary64, nothing
    replaces it, and the sample returned in binary64 is [+inf] with the state
    still zero. *)
Lemma normal_random_log_of_zero :
  normal_random_u1 (D := ideal) rng_state_initial = 0%R /\
  normal_random_u1 (D := ieee annexF_libm) rng_state_initial = 0%float /\
  normal_random (D := ieee annexF_libm) rng_state_initial
  = (PrimFloat.infinity, 0%Z).
Proof.
  split; [ | split; reflexivity].
  unfold normal_random_u1. rewrite random_double_run. cbn [fst].
  rewrite uniform_of_ideal. cbn. lra.
Qed.

(** C7, as the code has it. [normal_random] has no guard: it takes exactly
    two generator outputs, never a third, turns them into [u1] and [u2]
    unchanged and returns [sqrt(-2 ln u1) * cos(2 pi u2)]; what keeps [log]
    away from 0 is the state: from a nonzero 32-bit state [u1] is strictly
    positive. *)
Theorem normal_random_unguarded (st : Z) :
  live_state st ->
  let u1 := uniform_of (D := ideal) (advance 1 st) in
  let u2 := uniform_of (D := ideal) (advance 2 st) in
  normal_random (D := ideal) st =
  ((sqrt (-2 * ln u1) * cos (2 * PI * u2))%R, advance 2 st) /\
  normal_random_u1 (D := ideal) st = u1 /\
  (0 < u1)%R.
Proof.
  intros Hst u1 u2. split; [ | split].
  - rewrite normal_random_run. reflexivity.
  - reflexivity.
  - destruct (xorshift32_step_live st Hst) as [[Hlo _] Hnz].
    apply Rlt_le_trans with (1 / (2 ^ 32 - 1))%R.
    + apply smallest_uniform_positive.
    + apply uniform_of_positive. cbn [advance]. lia.
Qed.

Lemma normal_random_unguarded_witness :
  live_state (rng_seed 123456) /\
  (let u1 := uniform_of (D := ideal) (advance 1 (rng_seed 123456)) in
   let u2 := uniform_of (D := ideal) (advance 2 (rng_seed 123456)) in
   normal_random (D := ideal) (rng_seed 123456) =
   ((sqrt (-2 * ln u1) * cos (2 * PI * u2))%R, advance 2 (rng_seed 123456)) /\
   normal_random_u1 (D := ideal) (rng_seed 123456) = u1 /\
   (0 < u1)%R).
Proof.
  assert (H : live_state (rng_seed 123456))
    by (apply rng_seed_live; unfold is_uint32; lia).
  split; [exact H | ].
  apply (normal_random_unguarded (rng_seed 123456) H).
Defined.

(** * Part III: further properties of the core and of its callers *)

(** ** The generator is injective *)

Section GeneratorCycle.
Local Open Scope Z_scope.

Lemma wrap32_land (z : Z) : wrap32 z = Z.land z (Z.ones 32).
Proof. unfold wrap32. rewrite Z.land_ones by lia. reflexivity. Qed.

(** [x ^= x << k] is linear over xor. *)
Lemma xor_shiftl_linear (a b k : Z) :
  Z.lxor (Z.lxor a (wrap32 (Z.shiftl a k)))
         (Z.lxor b (wrap32 (Z.shiftl b k))) =
  Z.lxor (Z.lxor a b) (wrap32 (Z.shiftl (Z.lxor a b) k)).
Proof.
  rewrite !wrap32_land, Z.shiftl_lxor.
  apply Z.bits_inj'. intros n Hn.
  rewrite !Z.lxor_spec, !Z.land_spec, !Z.lxor_spec.
  destruct (Z.testbit a n), (Z.testbit b n), (Z.testbit (Z.shiftl a k) n),
    (Z.testbit (Z.shiftl b k) n), (Z.testbit (Z.ones 32) n); reflexivity.
Qed.

(** So is [x ^= x >> k]. *)
Lemma xor_shiftr_linear (a b k : Z) :
  Z.lxor (Z.lxor a (Z.shiftr a k)) (Z.lxor b (Z.shiftr b k)) =
  Z.lxor (Z.lxor a b) (Z.shiftr (Z.lxor a b) k).
Proof.
  rewrite Z.shiftr_lxor.
  apply Z.bits_inj'. intros n Hn.
  rewrite !Z.lxor_spec.
  destruct (Z.testbit a n), (Z.testbit b n), (Z.testbit (Z.shiftr a k) n),
    (Z.testbit (Z.shiftr b k) n); reflexivity.
Qed.

(** A linear map that sends only zero to zero is injective. *)
Lemma xor_shiftl_injective (a b k : Z) :
  0 < k -> Z.gcd (2 ^ 32) (2 ^ k - 1) = 1 ->
  is_uint32 a -> is_uint32 b ->
  Z.lxor a (wrap32 (Z.shiftl a k)) = Z.lxor b (wrap32 (Z.shiftl b k)) ->
  a = b.
Proof.
  intros Hk Hodd Ha Hb E.
  apply Z.lxor_eq.
  destruct (Z.eq_dec (Z.lxor a b) 0) as [E0 | N]; [exact E0 | exfalso].
  apply (xor_shiftl_nonzero (Z.lxor a b) k Hk Hodd (lxor_uint32 a b Ha Hb) N).
  rewrite <- xor_shiftl_linear, E. apply Z.lxor_nilpotent.
Qed.

Lemma xor_shiftr_injective (a b k : Z) :
  0 < k -> is_uint32 a -> is_uint32 b ->
  Z.lxor a (Z.shiftr a k) = Z.lxor b (Z.shiftr b k) -> a = b.
Proof.
  intros Hk Ha Hb E.
  apply Z.lxor_eq.
  destruct (Z.eq_dec (Z.lxor a b) 0) as [E0 | N]; [exact E0 | exfalso].
  apply (xor_shiftr_nonzero (Z.lxor a b) k Hk (lxor_uint32 a b Ha Hb) N).
  rewrite <- xor_shiftr_linear, E. apply Z.lxor_nilpotent.
Qed.

Lemma xorshift32_step_inj (a b : Z) :
  is_uint32 a -> is_uint32 b -> xorshift32_step a = xorshift32_step b -> a = b.
Proof.
  intros Ha Hb E. unfold xorshift32_step in E. cbv zeta in E.
  assert (Ha1 : is_uint32 (Z.lxor a (wrap32 (Z.shiftl a 13))))
    by (apply lxor_uint32; [exact Ha | apply wrap32_uint32]).
  assert (Hb1 : is_uint32 (Z.lxor b (wrap32 (Z.shiftl b 13))))
    by (apply lxor_uint32; [exact Hb | apply wrap32_uint32]).
  apply xor_shiftl_injective in E;
    [ | lia | reflexivity
      | apply lxor_uint32; [ | apply shiftr_uint32; [lia | ]]; assumption
      | apply lxor_uint32; [ | apply shiftr_uint32; [lia | ]]; assumption ].
  apply xor_shiftr_injective in E; [ | lia | assumption | assumption].
  apply xor_shiftl_injective in E; [exact E | lia | reflexivity | | ];
    assumption.
Qed.

(** X1. Two different 32-bit generator states never have the same
    successor: [xorshift32] merges no two states. *)
Theorem xorshift32_step_injective (a b : Z) :
  is_uint32 a -> is_uint32 b -> a <> b ->
  xorshift32_step a <> xorshift32_step b.
Proof. intros Ha Hb N E. apply N, xorshift32_step_inj; assumption. Qed.

Lemma xorshift32_step_injective_witness :
  is_uint32 1 /\ is_uint32 2 /\ 1 <> 2 /\
  xorshift32_step 1 <> xorshift32_step 2.
Proof.
  assert (H1 : is_uint32 1) by (unfold is_uint32; lia).
  assert (H2 : is_uint32 2) by (unfold is_uint32; lia).
  assert (N : 1 <> 2) by lia.
  split; [exact H1 | split; [exact H2 | split; [exact N | ]]].
  apply (xorshift32_step_injective 1 2 H1 H2 N).
Defined.

Lemma advance_uint32 (n : nat) (st : Z) :
  is_uint32 st -> is_uint32 (advance n st).
Proof.
  revert st. induction n as [ | n IH]; intros st H; cbn; [exact H | ].
  apply IH, xorshift32_step_uint32, H.
Qed.

Lemma advance_step_comm (n : nat) (st : Z) :
  advance n (xorshift32_step st) = xorshift32_step (advance n st).
Proof.
  revert st. induction n as [ | n IH]; intros st; cbn; [reflexivity | apply IH].
Qed.

Lemma advance_recurrence (n d : nat) (s : Z) :
  is_uint32 s -> advance (n + d) s = advance n s -> advance d s = s.
Proof.
  intros Hs. induction n as [ | n IH]; intros E; [exact E | ].
  apply IH. cbn [Nat.add advance] in E.
  rewrite !advance_step_comm in E.
  apply xorshift32_step_inj in E; [exact E | | ]; apply advance_uint32, Hs.
Qed.

(** X2. The stream from a 32-bit state has no lead-in: as long as [d] steps
    do not bring the generator back to the state it started from, no two
    states [d] steps apart, however late in the stream, are equal. *)
Theorem xorshift32_orbit_is_a_cycle (n d : nat) (s : Z) :
  is_uint32 s -> advance d s <> s -> advance (n + d) s <> advance n s.
Proof. intros Hs N E. apply N, (advance_recurrence n d s Hs E). Qed.

Lemma xorshift32_orbit_is_a_cycle_witness :
  is_uint32 1 /\ advance 1 1 <> 1 /\ advance (5 + 1) 1 <> advance 5 1.
Proof.
  assert (H1 : is_uint32 1) by (unfold is_uint32; lia).
  assert (N : advance 1 1 <> 1) by (cbn; discriminate).
  split; [exact H1 | split; [exact N | ]].
  apply (xorshift32_orbit_is_a_cycle 5 1 1 H1 N).
Defined.

End GeneratorCycle.

(** ** The samplers on the reals *)

Section SamplersIdeal.
Local Open Scope R_scope.

(** X3. From a nonzero 32-bit state [random_double] returns a value in
    (0, 1]: never 0, and at most 1. *)
Theorem random_double_in_unit_interval (st : Z) :
  live_state st ->
  0 < fst (random_double (D := ideal) st) <= 1.
Proof.
  intros Hst. destruct (xorshift32_step_live st Hst) as [Hu Hnz].
  rewrite random_double_run. cbn [fst]. split.
  - apply Rlt_le_trans with (1 / (2 ^ 32 - 1)).
    + apply smallest_uniform_positive.
    + apply uniform_of_positive. unfold is_uint32 in Hu. lia.
  - apply uniform_of_at_most_one, Hu.
Qed.

Lemma random_double_in_unit_interval_witness :
  live_state (rng_seed 123456) /\
  0 < fst (random_double (D := ideal) (rng_seed 123456)) <= 1.
Proof.
  assert (H : live_state (rng_seed 123456))
    by (apply rng_seed_live; unfold is_uint32; lia).
  split; [exact H | ].
  apply (random_double_in_unit_interval (rng_seed 123456) H).
Defined.

Lemma box_muller_radius (u1 : R) :
  1 / (2 ^ 32 - 1) <= u1 <= 1 ->
  0 <= -2 * ln u1 <= 2 * ln (2 ^ 32 - 1).
Proof.
  intros [Hlo Hhi].
  pose proof smallest_uniform_positive as Hpos.
  assert (Hu : 0 < u1) by lra.
  assert (H1 : ln u1 <= 0).
  { rewrite <- ln_1. destruct Hhi as [Hlt | ->]; [ | lra].
    left. apply ln_increasing; assumption. }
  assert (H2 : - ln (2 ^ 32 - 1) <= ln u1).
  { rewrite <- ln_Rinv by lra.
    replace (/ (2 ^ 32 - 1)) with (1 / (2 ^ 32 - 1)) by lra.
    destruct Hlo as [Hlt | <-]; [ | lra].
    left. apply ln_increasing; assumption. }
  lra.
Qed.

(** X4. From a nonzero 32-bit state the argument [-2 ln u1] of the [sqrt]
    in [normal_random] is not negative, and the sample is bounded:
    [|Z| <= sqrt(2 ln(2^32 - 1))], about 6.66. *)
Theorem normal_random_bounded (st : Z) :
  live_state st ->
  let u1 := normal_random_u1 (D := ideal) st in
  0 <= -2 * ln u1 /\
  Rabs (fst (normal_random (D := ideal) st)) <= sqrt (2 * ln (2 ^ 32 - 1)).
Proof.
  intros Hst u1.
  assert (Hu : 1 / (2 ^ 32 - 1) <= u1 <= 1).
  { unfold u1, normal_random_u1. rewrite random_double_run. cbn [fst].
    destruct (xorshift32_step_live st Hst) as [Hr Hnz]. split.
    - apply uniform_of_positive. unfold is_uint32 in Hr. lia.
    - apply uniform_of_at_most_one, Hr. }
  destruct (box_muller_radius u1 Hu) as [H0 H1].
  split; [exact H0 | ].
  set (u2 := uniform_of (D := ideal) (advance 2 st)).
  assert (E : fst (normal_random (D := ideal) st)
              = sqrt (-2 * ln u1) * cos (2 * PI * u2)) by reflexivity.
  rewrite E, Rabs_mult.
  set (B := sqrt (2 * ln (2 ^ 32 - 1))).
  replace B with (B * 1) by lra.
  apply Rmult_le_compat; try apply Rabs_pos.
  - rewrite Rabs_pos_eq by apply sqrt_pos.
    apply sqrt_le_1_alt. exact H1.
  - apply Rabs_le. pose proof (COS_bound (2 * PI * u2)). lra.
Qed.

Lemma normal_random_bounded_witness :
  live_state (rng_seed 123456) /\
  (let u1 := normal_random_u1 (D := ideal) (rng_seed 123456) in
   0 <= -2 * ln u1 /\
   Rabs (fst (normal_random (D := ideal) (rng_seed 123456)))
   <= sqrt (2 * ln (2 ^ 32 - 1))).
Proof.
  assert (H : live_state (rng_seed 123456))
    by (apply rng_seed_live; unfold is_uint32; lia).
  split; [exact H | ].
  apply (normal_random_bounded (rng_seed 123456) H).
Defined.

(** X5. For a positive initial price, a maturity that is not negative and
    a nonzero 32-bit generator state, the terminal price that [simulate_gbm]
    returns is not negative, whatever the rate and the volatility. *)
Theorem simulate_gbm_nonnegative (S0 r sigma T : R) (st : Z) :
  0 < S0 -> 0 <= T -> live_state st ->
  0 <= fst (simulate_gbm (D := ideal) S0 r sigma T st).
Proof.
  intros H _ _. rewrite simulate_gbm_run. cbn [fst]. cbv zeta.
  left. apply Rmult_lt_0_compat; [exact H | apply exp_pos].
Qed.

Lemma simulate_gbm_nonnegative_witness :
  0 < 100 /\ 0 <= 1 /\ live_state (rng_seed 123456) /\
  0 <= fst (simulate_gbm (D := ideal) 100 (5 / 100) (2 / 10) 1
              (rng_seed 123456)).
Proof.
  assert (H : 0 < 100) by lra.
  assert (HT : 0 <= 1) by lra.
  assert (Hst : live_state (rng_seed 123456))
    by (apply rng_seed_live; unfold is_uint32; lia).
  split; [exact H | split; [exact HT | split; [exact Hst | ]]].
  apply (simulate_gbm_nonnegative 100 (5 / 100) (2 / 10) 1 (rng_seed 123456)
           H HT Hst).
Defined.

(** X6. On the reals [call_payoff S K = max(S - K, 0)] and
    [put_payoff S K = max(K - S, 0)]; neither is ever negative, and at
    most one of the two is nonzero. *)
Theorem payoff_max_form (S K : R) :
  call_payoff (D := ideal) S K = Rmax (S - K) 0 /\
  put_payoff (D := ideal) S K = Rmax (K - S) 0 /\
  0 <= call_payoff (D := ideal) S K /\
  0 <= put_payoff (D := ideal) S K /\
  call_payoff (D := ideal) S K * put_payoff (D := ideal) S K = 0.
Proof.
  rewrite call_payoff_ideal, put_payoff_ideal. unfold Rmax.
  destruct (Rle_dec (S - K) 0), (Rle_dec (K - S) 0); repeat split; lra.
Qed.

End SamplersIdeal.

(** ** Sequences of draws *)

Section Sequences.

Lemma replicate_rng_succ {A : Type} (c : rng A) (n : nat) (st : Z) :
  replicate_rng (S n) c st =
  (fst (c st) :: fst (replicate_rng n c (snd (c st))),
   snd (replicate_rng n c (snd (c st)))).
Proof.
  cbn [replicate_rng]. unfold bind, ret.
  destruct (c st) as [a st1]. cbn [fst snd].
  destruct (replicate_rng n c st1). reflexivity.
Qed.

Lemma bind_ret_run {A B : Type} (c : rng A) (f : A -> B) (st : Z) :
  (a <- c ;; ret (f a)) st = (f (fst (c st)), snd (c st)).
Proof. unfold bind, ret. destruct (c st). reflexivity. Qed.

Lemma replicate_rng_map {A B : Type} (c : rng A) (f : A -> B) (n : nat) :
  forall st,
    replicate_rng n (a <- c ;; ret (f a)) st =
    (map f (fst (replicate_rng n c st)), snd (replicate_rng n c st)).
Proof.
  induction n as [ | n IH]; intros st; [reflexivity | ].
  rewrite !replicate_rng_succ, bind_ret_run. cbn [fst snd map].
  rewrite IH. reflexivity.
Qed.

Lemma replicate_rng_app {A : Type} (c : rng A) (n m : nat) :
  forall st,
    replicate_rng (n + m) c st =
    (fst (replicate_rng n c st)
     ++ fst (replicate_rng m c (snd (replicate_rng n c st))),
     snd (replicate_rng m c (snd (replicate_rng n c st)))).
Proof.
  induction n as [ | n IH]; intros st.
  - cbn. destruct (replicate_rng m c st); reflexivity.
  - cbn [Nat.add]. rewrite !replicate_rng_succ, IH. reflexivity.
Qed.

Lemma payoffs_of_terminal_prices {D : Double}
  (S0 K r sigma T : double) (n : nat) (st : Z) :
  fst (replicate_rng n (payoff_draw S0 K r sigma T) st) =
  map (fun ST => call_payoff ST K) (terminal_prices S0 r sigma T n st).
Proof.
  unfold payoff_draw, terminal_prices. rewrite replicate_rng_map. reflexivity.
Qed.

End Sequences.

(** ** The estimator on the reals *)

Section EstimatorIdeal.
Local Open Scope R_scope.

(** An equation between [double]s of [ideal] is an equation of reals. *)
Ltac real_equation :=
  match goal with |- @eq _ ?a ?b => change (@eq R a b) end.

Lemma mc_value_ideal (S0 K r sigma T : R) (n_sim st : Z) :
  fst (price_european_call_mc (D := ideal) S0 K r sigma T n_sim st) =
  Spec.sum_of (map (fun ST => call_payoff (D := ideal) ST K)
                 (terminal_prices (D := ideal) S0 r sigma T
                    (Z.to_nat n_sim) st))
  / IZR n_sim * exp (- (r * T)).
Proof.
  rewrite price_european_call_mc_run. cbv zeta. cbn [fst].
  rewrite payoffs_of_terminal_prices.
  change (@d_add ideal) with Rplus. rewrite fold_left_Rplus.
  cbn. replace (- r * T) with (- (r * T)) by lra.
  f_equal. f_equal. lra.
Qed.

Lemma call_payoff_nonneg (S K : R) : 0 <= call_payoff (D := ideal) S K.
Proof. rewrite call_payoff_ideal. apply Rmax_r. Qed.

Lemma sum_of_nonneg (l : list R) :
  Forall (fun x => 0 <= x) l -> 0 <= Spec.sum_of l.
Proof.
  induction 1 as [ | x l Hx _ IH]; cbn; [lra | ].
  unfold Spec.sum_of in IH. lra.
Qed.

Lemma sum_of_map_le {A : Type} (f g : A -> R) (l : list A) :
  (forall a, f a <= g a) -> Spec.sum_of (map f l) <= Spec.sum_of (map g l).
Proof.
  intros H. induction l as [ | a l IH]; cbn; [lra | ].
  specialize (H a). unfold Spec.sum_of in IH. lra.
Qed.

Lemma sum_of_map_scale {A : Type} (f : A -> R) (c : R) (l : list A) :
  Spec.sum_of (map (fun a => c * f a) l) = c * Spec.sum_of (map f l).
Proof.
  induction l as [ | a l IH]; cbn; [lra | ].
  unfold Spec.sum_of in IH. rewrite IH. lra.
Qed.

Lemma sum_of_app (l1 l2 : list R) :
  Spec.sum_of (l1 ++ l2) = Spec.sum_of l1 + Spec.sum_of l2.
Proof.
  unfold Spec.sum_of. induction l1 as [ | x l1 IH]; cbn; [lra | ].
  rewrite IH. lra.
Qed.

Lemma sum_of_repeat (v : R) (n : nat) :
  Spec.sum_of (repeat v n) = INR n * v.
Proof.
  induction n as [ | n IH]; [cbn; lra | ].
  rewrite S_INR. cbn [repeat]. unfold Spec.sum_of in *. cbn [fold_right].
  rewrite IH. lra.
Qed.

(** X7. With at least one simulation the Monte Carlo estimate is never
    negative, for any parameters and any state of the generator. *)
Theorem price_european_call_mc_nonneg (S0 K r sigma T : R) (n_sim st : Z) :
  (1 <= n_sim)%Z ->
  0 <= fst (price_european_call_mc (D := ideal) S0 K r sigma T n_sim st).
Proof.
  intros Hn. rewrite mc_value_ideal.
  assert (Hn' : 0 < IZR n_sim) by (apply IZR_lt; lia).
  apply Rmult_le_pos; [ | left; apply exp_pos].
  apply Rmult_le_pos; [ | left; apply Rinv_0_lt_compat, Hn'].
  apply sum_of_nonneg, Forall_forall. intros x Hx.
  apply in_map_iff in Hx. destruct Hx as [ST [<- _]]. apply call_payoff_nonneg.
Qed.

Lemma price_european_call_mc_nonneg_witness :
  (1 <= 3)%Z /\
  0 <= fst (price_european_call_mc (D := ideal) 100 100 (5 / 100) (2 / 10) 1 3
              (rng_seed 123456)).
Proof.
  split; [lia | ].
  apply (price_european_call_mc_nonneg 100 100 (5 / 100) (2 / 10) 1 3
           (rng_seed 123456)). lia.
Defined.

(** X8. From the same generator state the estimate does not increase with
    the strike: [K1 <= K2] gives a price at [K2] that is at most the price
    at [K1]. *)
Theorem price_european_call_mc_strike_monotone
  (S0 K1 K2 r sigma T : R) (n_sim st : Z) :
  (1 <= n_sim)%Z -> K1 <= K2 ->
  fst (price_european_call_mc (D := ideal) S0 K2 r sigma T n_sim st) <=
  fst (price_european_call_mc (D := ideal) S0 K1 r sigma T n_sim st).
Proof.
  intros Hn HK. rewrite !mc_value_ideal.
  assert (Hn' : 0 < IZR n_sim) by (apply IZR_lt; lia).
  apply Rmult_le_compat_r; [left; apply exp_pos | ].
  apply Rmult_le_compat_r; [left; apply Rinv_0_lt_compat, Hn' | ].
  apply sum_of_map_le. intros ST. rewrite !call_payoff_ideal.
  apply Rle_max_compat_r. lra.
Qed.

Lemma price_european_call_mc_strike_monotone_witness :
  (1 <= 3)%Z /\ 100 <= 110 /\
  fst (price_european_call_mc (D := ideal) 100 110 (5 / 100) (2 / 10) 1 3
         (rng_seed 123456)) <=
  fst (price_european_call_mc (D := ideal) 100 100 (5 / 100) (2 / 10) 1 3
         (rng_seed 123456)).
Proof.
  split; [lia | split; [lra | ]].
  apply (price_european_call_mc_strike_monotone 100 100 110 (5 / 100)
           (2 / 10) 1 3 (rng_seed 123456)); lia || lra.
Defined.

Lemma call_payoff_scale (c S K : R) :
  0 <= c ->
  call_payoff (D := ideal) (c * S) (c * K) = c * call_payoff (D := ideal) S K.
Proof.
  intros Hc. rewrite !call_payoff_ideal. unfold Rmax.
  destruct (Rle_dec (c * S - c * K) 0), (Rle_dec (S - K) 0); nra.
Qed.

Lemma terminal_prices_scale (c S0 r sigma T : R) (n : nat) (st : Z) :
  terminal_prices (D := ideal) (c * S0) r sigma T n st =
  map (Rmult c) (terminal_prices (D := ideal) S0 r sigma T n st).
Proof.
  unfold terminal_prices. revert st.
  induction n as [ | n IH]; intros st; [reflexivity | ].
  rewrite !replicate_rng_succ. cbn [fst snd map].
  rewrite !simulate_gbm_run. cbn [fst snd]. rewrite IH.
  f_equal. cbn. lra.
Qed.

(** X9. The estimator is homogeneous in the prices: from the same generator
    state, multiplying the initial price and the strike by [c > 0]
    multiplies the estimate by [c]. *)
Theorem price_european_call_mc_scale
  (c S0 K r sigma T : R) (n_sim st : Z) :
  (1 <= n_sim)%Z -> 0 < c ->
  fst (price_european_call_mc (D := ideal) (c * S0) (c * K) r sigma T n_sim st)
  = c * fst (price_european_call_mc (D := ideal) S0 K r sigma T n_sim st).
Proof.
  intros _ Hc. rewrite !mc_value_ideal, terminal_prices_scale, map_map.
  rewrite (map_ext _ (fun ST => c * call_payoff (D := ideal) ST K))
    by (intros ST; apply call_payoff_scale; lra).
  rewrite sum_of_map_scale. unfold Rdiv. rewrite !Rmult_assoc. reflexivity.
Qed.

Lemma price_european_call_mc_scale_witness :
  (1 <= 3)%Z /\ 0 < 2 /\
  fst (price_european_call_mc (D := ideal) (2 * 100) (2 * 100) (5 / 100)
         (2 / 10) 1 3 (rng_seed 123456))
  = 2 * fst (price_european_call_mc (D := ideal) 100 100 (5 / 100)
               (2 / 10) 1 3 (rng_seed 123456)).
Proof.
  split; [lia | split; [lra | ]].
  apply (price_european_call_mc_scale 2 100 100 (5 / 100) (2 / 10) 1 3
           (rng_seed 123456)); lia || lra.
Defined.

(** X10. The analytic price is homogeneous in the prices: for a positive
    strike, multiplying the initial price and the strike by [c > 0]
    multiplies the Black-Scholes price by [c]. *)
Theorem price_european_call_bs_scale (c S0 K r sigma T : R) :
  0 < c -> 0 < K ->
  price_european_call_bs (D := ideal) (c * S0) (c * K) r sigma T
  = c * price_european_call_bs (D := ideal) S0 K r sigma T.
Proof.
  intros Hc HK. unfold price_european_call_bs. cbv zeta. cbn.
  replace (c * S0 / (c * K)) with (S0 / K) by (field; lra).
  real_equation. ring.
Qed.

Lemma price_european_call_bs_scale_witness :
  0 < 2 /\ 0 < 100 /\
  price_european_call_bs (D := ideal) (2 * 100) (2 * 100) (5 / 100) (2 / 10) 1
  = 2 * price_european_call_bs (D := ideal) 100 100 (5 / 100) (2 / 10) 1.
Proof.
  split; [lra | split; [lra | ]].
  apply (price_european_call_bs_scale 2 100 100 (5 / 100) (2 / 10) 1); lra.
Defined.

Lemma terminal_prices_constant (S0 r sigma T v : R) (n : nat) :
  (forall st, fst (simulate_gbm (D := ideal) S0 r sigma T st) = v) ->
  forall st, terminal_prices (D := ideal) S0 r sigma T n st = repeat v n.
Proof.
  intros Hv. unfold terminal_prices.
  induction n as [ | n IH]; intros st; [reflexivity | ].
  rewrite replicate_rng_succ. cbn [fst repeat]. rewrite Hv, IH. reflexivity.
Qed.

Lemma mc_value_constant (S0 K r sigma T v : R) (n_sim st : Z) :
  (1 <= n_sim)%Z ->
  (forall st, fst (simulate_gbm (D := ideal) S0 r sigma T st) = v) ->
  fst (price_european_call_mc (D := ideal) S0 K r sigma T n_sim st) =
  call_payoff (D := ideal) v K * exp (- (r * T)).
Proof.
  intros Hn Hv. rewrite mc_value_ideal.
  rewrite (terminal_prices_constant S0 r sigma T v _ Hv), map_repeat.
  rewrite sum_of_repeat, INR_IZR_INZ, Z2Nat.id by lia.
  assert (Hn' : IZR n_sim <> 0) by (apply not_0_IZR; lia).
  real_equation. field. exact Hn'.
Qed.

(** X11. On the expiry date, [T = 0], from a nonzero 32-bit generator
    state, every path ends at [S0] and the estimate is the intrinsic value
    [max(S0 - K, 0)], for any number of simulations from 1 on and any rate
    and volatility. *)
Theorem price_european_call_mc_at_expiry (S0 K r sigma : R) (n_sim st : Z) :
  (1 <= n_sim)%Z -> live_state st ->
  fst (price_european_call_mc (D := ideal) S0 K r sigma 0 n_sim st) =
  Rmax (S0 - K) 0.
Proof.
  intros Hn _. rewrite (mc_value_constant S0 K r sigma 0 S0 n_sim st Hn).
  - rewrite call_payoff_ideal. replace (- (r * 0)) with 0 by lra.
    rewrite exp_0. lra.
  - intros st'. rewrite simulate_gbm_run. cbn. rewrite sqrt_0.
    replace (_ * 0 + _) with 0 by lra. rewrite exp_0. lra.
Qed.

Lemma price_european_call_mc_at_expiry_witness :
  (1 <= 3)%Z /\ live_state (rng_seed 123456) /\
  fst (price_european_call_mc (D := ideal) 110 100 (5 / 100) (2 / 10) 0 3
         (rng_seed 123456)) = Rmax (110 - 100) 0.
Proof.
  assert (Hst : live_state (rng_seed 123456))
    by (apply rng_seed_live; unfold is_uint32; lia).
  split; [lia | split; [exact Hst | ]].
  apply (price_european_call_mc_at_expiry 110 100 (5 / 100) (2 / 10) 3
           (rng_seed 123456)); [lia | exact Hst].
Defined.

(** X12. With no volatility, [sigma = 0], a maturity that is not negative
    and a nonzero 32-bit generator state, every path ends at [S0 exp(rT)]
    and the estimate is [exp(-rT) max(S0 exp(rT) - K, 0)], whatever the
    draws. *)
Theorem price_european_call_mc_zero_volatility (S0 K r T : R) (n_sim st : Z) :
  (1 <= n_sim)%Z -> 0 <= T -> live_state st ->
  fst (price_european_call_mc (D := ideal) S0 K r 0 T n_sim st) =
  exp (- (r * T)) * Rmax (S0 * exp (r * T) - K) 0.
Proof.
  intros Hn _ _.
  rewrite (mc_value_constant S0 K r 0 T (S0 * exp (r * T)) n_sim st Hn).
  - rewrite call_payoff_ideal. lra.
  - intros st'. rewrite simulate_gbm_run. cbn. f_equal. f_equal. lra.
Qed.

Lemma price_european_call_mc_zero_volatility_witness :
  (1 <= 3)%Z /\ 0 <= 1 /\ live_state (rng_seed 123456) /\
  fst (price_european_call_mc (D := ideal) 100 100 (5 / 100) 0 1 3
         (rng_seed 123456)) =
  exp (- (5 / 100 * 1)) * Rmax (100 * exp (5 / 100 * 1) - 100) 0.
Proof.
  assert (HT : 0 <= 1) by lra.
  assert (Hst : live_state (rng_seed 123456))
    by (apply rng_seed_live; unfold is_uint32; lia).
  split; [lia | split; [exact HT | split; [exact Hst | ]]].
  apply (price_european_call_mc_zero_volatility 100 100 (5 / 100) 1 3
           (rng_seed 123456)); [lia | exact HT | exact Hst].
Defined.

(** X13. Two runs one after the other make one larger run: the estimate
    over [n1 + n2] simulations is the average, weighted by [n1] and [n2],
    of the estimate over [n1] simulations and the estimate over [n2]
    simulations started from the state the first run leaves, and the final
    states agree. *)
Theorem price_european_call_mc_batches
  (S0 K r sigma T : R) (n1 n2 st : Z) :
  (1 <= n1)%Z -> (1 <= n2)%Z ->
  let p1 := fst (price_european_call_mc (D := ideal) S0 K r sigma T n1 st) in
  let st1 := snd (price_european_call_mc (D := ideal) S0 K r sigma T n1 st) in
  let p2 := fst (price_european_call_mc (D := ideal) S0 K r sigma T n2 st1) in
  price_european_call_mc (D := ideal) S0 K r sigma T (n1 + n2) st =
  ((IZR n1 * p1 + IZR n2 * p2) / IZR (n1 + n2),
   snd (price_european_call_mc (D := ideal) S0 K r sigma T n2 st1)).
Proof.
  intros H1 H2 p1 st1 p2.
  assert (Hst1 : st1 = advance (Z.to_nat n1 * 2) st)
    by (unfold st1; rewrite price_european_call_mc_run; reflexivity).
  assert (Hs : snd (replicate_rng (Z.to_nat n1)
                      (simulate_gbm (D := ideal) S0 r sigma T) st) = st1).
  { rewrite Hst1. apply replicate_rng_state. reflexivity. }
  rewrite (surjective_pairing
             (price_european_call_mc _ _ _ _ _ (n1 + n2)%Z st)).
  f_equal.
  - unfold p1, p2. rewrite !mc_value_ideal.
    rewrite Z2Nat.inj_add by lia. unfold terminal_prices.
    rewrite replicate_rng_app. cbn [fst]. rewrite Hs.
    rewrite map_app, sum_of_app, plus_IZR.
    assert (N1 : IZR n1 <> 0) by (apply not_0_IZR; lia).
    assert (N2 : IZR n2 <> 0) by (apply not_0_IZR; lia).
    assert (N12 : IZR n1 + IZR n2 <> 0).
    { rewrite <- plus_IZR. apply not_0_IZR. lia. }
    real_equation. field. repeat split; assumption.
  - rewrite !price_european_call_mc_run. cbn [snd]. rewrite Hst1.
    rewrite <- advance_add. f_equal. lia.
Qed.

Lemma price_european_call_mc_batches_witness :
  (1 <= 2)%Z /\ (1 <= 3)%Z /\
  (let p1 := fst (price_european_call_mc (D := ideal) 100 100 (5 / 100)
                    (2 / 10) 1 2 (rng_seed 123456)) in
   let st1 := snd (price_european_call_mc (D := ideal) 100 100 (5 / 100)
                     (2 / 10) 1 2 (rng_seed 123456)) in
   let p2 := fst (price_european_call_mc (D := ideal) 100 100 (5 / 100)
                    (2 / 10) 1 3 st1) in
   price_european_call_mc (D := ideal) 100 100 (5 / 100) (2 / 10) 1 (2 + 3)
     (rng_seed 123456) =
   ((IZR 2 * p1 + IZR 3 * p2) / IZR (2 + 3),
    snd (price_european_call_mc (D := ideal) 100 100 (5 / 100) (2 / 10) 1 3
           st1))).
Proof.
  split; [lia | split; [lia | ]].
  apply (price_european_call_mc_batches 100 100 (5 / 100) (2 / 10) 1 2 3
           (rng_seed 123456)); lia.
Defined.

End EstimatorIdeal.

(** ** NaN and negative maturity in binary64 *)

Section EdgesIeee.
Context {M : Libm}.
Local Open Scope float_scope.

Lemma ltb_nan_l (y : float) : (nan <? y) = false.
Proof.
  rewrite ltb_spec. change (Prim2SF nan) with S754_nan.
  destruct (Prim2SF y); reflexivity.
Qed.

Lemma ltb_nan_r (x : float) : (x <? nan) = false.
Proof.
  rewrite ltb_spec. change (Prim2SF nan) with S754_nan.
  destruct (Prim2SF x); reflexivity.
Qed.

Lemma add_nan_r (x : float) : x + nan = nan.
Proof.
  apply nan_of_spec. rewrite add_spec. change (Prim2SF nan) with S754_nan.
  destruct (Prim2SF x); reflexivity.
Qed.

Lemma div_nan_l (y : float) : nan / y = nan.
Proof.
  apply nan_of_spec. rewrite div_spec. change (Prim2SF nan) with S754_nan.
  destruct (Prim2SF y); reflexivity.
Qed.

(** X14. In binary64 a NaN price or strike gives the payoff [0.0], for the
    call and for the put: both comparisons are false, so the NaN does not
    reach the caller. *)
Theorem payoff_of_nan (S K : float) :
  S = nan \/ K = nan ->
  call_payoff (D := ieee M) S K = 0 /\ put_payoff (D := ieee M) S K = 0.
Proof.
  unfold call_payoff, put_payoff. cbn.
  intros [-> | ->]; rewrite ?ltb_nan_l, ?ltb_nan_r; split; reflexivity.
Qed.

(** [sqrt] of a negative number, [-inf] included, is NaN. *)
Lemma sqrt_negative (T : float) : (T <? 0) = true -> PrimFloat.sqrt T = nan.
Proof.
  rewrite ltb_spec. change (Prim2SF 0) with (S754_zero false). intros H.
  apply nan_of_spec. rewrite sqrt_spec.
  destruct (Prim2SF T) as [s | s | | s m e]; try destruct s;
    try discriminate; reflexivity.
Qed.

Lemma simulate_gbm_negative_maturity (S0 r sigma T : float) (st : Z) :
  (T <? 0) = true -> c_exp nan = nan ->
  simulate_gbm (D := ieee M) S0 r sigma T st = (nan, advance 2 st).
Proof.
  intros HT Hexp. rewrite simulate_gbm_run. cbv zeta. f_equal. cbn.
  rewrite (sqrt_negative T HT), mul_nan_r, mul_nan_l, add_nan_r, Hexp.
  apply mul_nan_r.
Qed.

Lemma zero_payoffs (S0 K r sigma T : float) (n : nat) :
  (T <? 0) = true -> c_exp nan = nan ->
  forall st,
    fst (replicate_rng n (payoff_draw (D := ieee M) S0 K r sigma T) st)
    = repeat 0 n.
Proof.
  intros HT Hexp. induction n as [ | n IH]; intros st; [reflexivity | ].
  rewrite replicate_rng_succ. cbn [fst snd repeat]. rewrite IH. f_equal.
  unfold payoff_draw. rewrite bind_ret_run. cbn [fst].
  rewrite (simulate_gbm_negative_maturity S0 r sigma T st HT Hexp). cbn [fst].
  unfold call_payoff. cbn. rewrite ltb_nan_r. reflexivity.
Qed.

Lemma fold_left_add_zeros (n : nat) :
  fold_left PrimFloat.add (repeat 0 n) 0 = 0.
Proof. induction n as [ | n IH]; [reflexivity | exact IH]. Qed.

(** X15. In binary64 a negative maturity is priced without complaint from
    payoffs that are all [0.0]: [sqrt(T)] is NaN, so with an [exp] that
    returns NaN for NaN (C99 F.9) every terminal price is NaN and every
    payoff zero, and the value returned is [0.0 / n_sim * exp(-r * T)]. *)
Theorem price_european_call_mc_negative_maturity
  (S0 K r sigma T : float) (n_sim st : Z) :
  (T <? 0) = true -> c_exp nan = nan ->
  price_european_call_mc (D := ieee M) S0 K r sigma T n_sim st =
  (0 / of_uint63 (Uint63.of_Z n_sim) * c_exp (- r * T),
   advance (Z.to_nat n_sim * 2) st).
Proof.
  intros HT Hexp. rewrite price_european_call_mc_run. cbv zeta.
  rewrite (zero_payoffs S0 K r sigma T _ HT Hexp).
  cbn. rewrite fold_left_add_zeros. reflexivity.
Qed.

(** X16. In binary64, when the analytic price is a zero the error in
    percent is an infinity or NaN, and the test [fabs(err) < 1.0] fails
    whatever the Monte Carlo price is, equal prices included. *)
Theorem error_pct_of_zero_price (mc_price bs_price : float) :
  is_zero bs_price = true ->
  within_one_percent (D := ieee M) (error_pct (D := ieee M) mc_price bs_price)
  = false.
Proof.
  intros Hz. unfold within_one_percent, error_pct. cbn.
  destruct (div_by_zero (mc_price - bs_price) bs_price Hz) as [E | [E | E]];
    rewrite E; reflexivity.
Qed.

(** X18. Run with [n_sim = 0], [test_option] returns NaN as the error of
    every record, with any libm, leaves the generator at the seed of the
    test, and NaN fails the test [fabs(err) < 1.0]. *)
Theorem test_option_zero_sims
  (g_seed : Z) (opt : OptionData (D := ieee M)) (test_num st : Z) :
  test_option (D := ieee M) g_seed opt 0%Z test_num st
  = (nan, test_seed g_seed test_num) /\
  within_one_percent (D := ieee M) nan = false.
Proof.
  split; [ | reflexivity].
  unfold test_option. rewrite price_european_call_mc_zero.
  f_equal. cbn. rewrite sub_nan_l, div_nan_l. apply mul_nan_l.
Qed.

End EdgesIeee.

Lemma payoff_of_nan_witness :
  (PrimFloat.nan = PrimFloat.nan \/ 100%float = PrimFloat.nan) /\
  call_payoff (D := ieee annexF_libm) PrimFloat.nan 100%float = 0%float /\
  put_payoff (D := ieee annexF_libm) PrimFloat.nan 100%float = 0%float.
Proof.
  split; [left; reflexivity | ].
  apply (payoff_of_nan (M := annexF_libm) PrimFloat.nan 100%float).
  left. reflexivity.
Defined.

Lemma price_european_call_mc_negative_maturity_witness :
  PrimFloat.ltb (-1)%float 0%float = true /\
  @c_exp annexF_libm PrimFloat.nan = PrimFloat.nan /\
  price_european_call_mc (D := ieee annexF_libm)
    100%float 100%float 0.05%float 0.2%float (-1)%float 1000
    (rng_seed 123456) =
  ((0 / PrimFloat.of_uint63 (Uint63.of_Z 1000)
    * @c_exp annexF_libm (- 0.05 * -1))%float,
   advance (Z.to_nat 1000 * 2) (rng_seed 123456)).
Proof.
  split; [reflexivity | split; [reflexivity | ]].
  apply (price_european_call_mc_negative_maturity (M := annexF_libm)
           100%float 100%float 0.05%float 0.2%float (-1)%float 1000
           (rng_seed 123456)); reflexivity.
Defined.

Lemma error_pct_of_zero_price_witness :
  PrimFloat.is_zero 0%float = true /\
  within_one_percent (D := ieee annexF_libm)
    (error_pct (D := ieee annexF_libm) 0%float 0%float) = false.
Proof.
  split; [reflexivity | ].
  apply (error_pct_of_zero_price (M := annexF_libm) 0%float 0%float).
  reflexivity.
Defined.

(** ** The report on the reals *)

Section ReportIdeal.
Local Open Scope R_scope.

(** X17. On the reals, for a nonzero analytic price, an estimate passes
    the test [fabs(error_pct) < 1.0] exactly when it differs from the
    analytic price by less than one hundredth of its absolute value. *)
Theorem within_one_percent_meaning (mc_price bs_price : R) :
  bs_price <> 0 ->
  (within_one_percent (D := ideal) (error_pct (D := ideal) mc_price bs_price)
   = true <->
   Rabs (mc_price - bs_price) < Rabs bs_price / 100).
Proof.
  intros Hbs. unfold within_one_percent, error_pct. cbn.
  assert (Hpos : 0 < Rabs bs_price) by (apply Rabs_pos_lt, Hbs).
  assert (E : Rabs ((mc_price - bs_price) / bs_price * 100)
              = Rabs (mc_price - bs_price) / Rabs bs_price * 100).
  { unfold Rdiv. rewrite !Rabs_mult, Rabs_inv.
    rewrite (Rabs_pos_eq 100) by lra. reflexivity. }
  rewrite E.
  assert (Hiff : Rabs (mc_price - bs_price) / Rabs bs_price * 100 < 1 <->
                 Rabs (mc_price - bs_price) < Rabs bs_price / 100).
  { split; intros H.
    - apply Rmult_lt_reg_r with (100 / Rabs bs_price).
      + apply Rdiv_lt_0_compat; lra.
      + replace (Rabs bs_price / 100 * (100 / Rabs bs_price)) with 1
          by (field; lra).
        replace (Rabs (mc_price - bs_price) * (100 / Rabs bs_price))
          with (Rabs (mc_price - bs_price) / Rabs bs_price * 100)
          by (field; lra).
        exact H.
    - apply Rmult_lt_reg_r with (Rabs bs_price / 100).
      + apply Rdiv_lt_0_compat; lra.
      + replace (Rabs (mc_price - bs_price) / Rabs bs_price * 100
                 * (Rabs bs_price / 100))
          with (Rabs (mc_price - bs_price)) by (field; lra).
        lra. }
  destruct (Rlt_dec (Rabs (mc_price - bs_price) / Rabs bs_price * 100) 1)
    as [Hlt | Hge]; split; intros H; try reflexivity; try discriminate.
  - apply Hiff, Hlt.
  - exfalso. apply Hge, Hiff, H.
Qed.

Lemma within_one_percent_meaning_witness :
  10 <> 0 /\
  (within_one_percent (D := ideal) (error_pct (D := ideal) (1005 / 100) 10)
   = true <->
   Rabs (1005 / 100 - 10) < Rabs 10 / 100).
Proof.
  assert (H : 10 <> 0) by lra.
  split; [exact H | ].
  apply (within_one_percent_meaning (1005 / 100) 10 H).
Defined.

End ReportIdeal.

(** ** The test driver *)

Section TestDriver.
Local Open Scope Z_scope.

(** X19. The seeds of two tests of one run, numbered [i < j], coincide in
    exactly one case: test [i] is the one whose sum [g_seed + i] wraps to 0
    and [j] is the next test; [rng_seed] turns that 0 into the 1 the next
    test gets.  Every other pair of tests starts from different states. *)
Theorem test_seed_collision (g_seed i j : Z) :
  is_uint32 g_seed -> 0 <= i < j -> j < 2 ^ 31 ->
  (test_seed g_seed i = test_seed g_seed j <->
   wrap32 (g_seed + i) = 0 /\ j = i + 1).
Proof.
  unfold is_uint32, test_seed, rng_seed, wrap32.
  change (2 ^ 32) with 4294967296. change (2 ^ 31) with 2147483648.
  intros Hg Hij Hj. cbv zeta.
  destruct (Z.eqb_spec ((g_seed + i) mod 4294967296) 0) as [Ea | Na];
    destruct (Z.eqb_spec ((g_seed + j) mod 4294967296) 0) as [Eb | Nb];
    split; intros H; try (Z.to_euclidean_division_equations; lia).
Qed.

Lemma test_seed_collision_witness :
  is_uint32 0 /\ 0 <= 0 < 1 /\ 1 < 2 ^ 31 /\
  (test_seed 0 0 = test_seed 0 1 <-> wrap32 (0 + 0) = 0 /\ 1 = 0 + 1).
Proof.
  assert (Hg : is_uint32 0) by (unfold is_uint32; lia).
  assert (Hij : 0 <= 0 < 1) by lia.
  assert (Hj : 1 < 2 ^ 31) by lia.
  split; [exact Hg | split; [exact Hij | split; [exact Hj | ]]].
  apply (test_seed_collision 0 0 1 Hg Hij Hj).
Defined.

Context {D : Double} {DR : DoubleReport D}.
Variable g_seed n_sim : Z.
Variable sscanf : String.string -> nat * OptionData.

Lemma summary_step_skips (acc : Summary) (line : String.string) (st : Z) :
  accepted sscanf line = false ->
  summary_step g_seed n_sim sscanf acc line st = (acc, st).
Proof.
  unfold accepted, summary_step.
  destruct (parse_csv_line sscanf line); [discriminate | reflexivity].
Qed.

Lemma int_succ_small (n : Z) : 0 <= n < 2 ^ 31 - 1 -> int_succ n = n + 1.
Proof.
  unfold int_succ. change (2 ^ 31) with 2147483648.
  change (2 ^ 32) with 4294967296. intros H.
  Z.to_euclidean_division_equations. lia.
Qed.

Lemma summary_step_counts (acc : Summary) (line : String.string) (st : Z) :
  accepted sscanf line = true ->
  0 <= within_1pct acc <= total acc -> total acc < 2 ^ 31 - 1 ->
  let acc' := fst (summary_step g_seed n_sim sscanf acc line st) in
  total acc' = total acc + 1 /\
  within_1pct acc <= within_1pct acc' <= within_1pct acc + 1.
Proof.
  unfold accepted, summary_step.
  destruct (parse_csv_line sscanf line) as [opt | ]; [intros _ | discriminate].
  intros Hw Ht. unfold bind, ret.
  destruct (test_option g_seed opt n_sim (total acc) st) as [err st'].
  cbn. rewrite int_succ_small by lia.
  destruct (within_one_percent err); [rewrite int_succ_small by lia | ]; lia.
Qed.

Lemma summary_loop_filter (lines : list String.string) :
  forall acc st,
    summary_loop g_seed n_sim sscanf lines acc st =
    summary_loop g_seed n_sim sscanf (filter (accepted sscanf) lines) acc st.
Proof.
  induction lines as [ | line rest IH]; intros acc st; [reflexivity | ].
  cbn [filter]. destruct (accepted sscanf line) eqn:E.
  - cbn [summary_loop]. unfold bind.
    destruct (summary_step g_seed n_sim sscanf acc line st). apply IH.
  - cbn [summary_loop]. unfold bind. rewrite summary_step_skips by exact E.
    apply IH.
Qed.

Lemma summary_loop_counts (lines : list String.string) :
  forall acc st,
    0 <= within_1pct acc <= total acc ->
    total acc + Z.of_nat (length (filter (accepted sscanf) lines)) < 2 ^ 31 ->
    let acc' := fst (summary_loop g_seed n_sim sscanf lines acc st) in
    total acc' =
    total acc + Z.of_nat (length (filter (accepted sscanf) lines)) /\
    within_1pct acc <= within_1pct acc' /\
    within_1pct acc' - within_1pct acc <= total acc' - total acc.
Proof.
  induction lines as [ | line rest IH]; intros acc st Hw Hb; [cbn; lia | ].
  cbn [summary_loop filter] in *. unfold bind.
  destruct (accepted sscanf line) eqn:E.
  - cbn [length] in Hb.
    assert (Ht : total acc < 2 ^ 31 - 1) by lia.
    pose proof (summary_step_counts acc line st E Hw Ht) as Hs.
    cbv zeta in Hs.
    destruct (summary_step g_seed n_sim sscanf acc line st) as [acc1 st1].
    cbn [fst] in Hs.
    assert (Hw1 : 0 <= within_1pct acc1 <= total acc1) by lia.
    assert (Hb1 : total acc1
                  + Z.of_nat (length (filter (accepted sscanf) rest))
                  < 2 ^ 31) by lia.
    specialize (IH acc1 st1 Hw1 Hb1). cbv zeta in *.
    cbn [length]. lia.
  - rewrite summary_step_skips by exact E. apply IH; assumption.
Qed.

(** X20. With fewer than [2^31] accepted records, so that the [int]
    counters do not overflow: lines that [parse_csv_line] rejects (comments,
    empty lines, records [sscanf] does not read in full) are transparent to
    the summary loop, which returns the same counters and leaves the same
    generator state with them removed, so they use up no test number;
    [total] is the number of accepted lines and [within_1pct] lies between
    0 and [total]. *)
Theorem summary_loop_skips_rejected_lines
  (lines : list String.string) (st : Z) :
  Z.of_nat (length (filter (accepted sscanf) lines)) < 2 ^ 31 ->
  let result := summary_loop g_seed n_sim sscanf lines summary_start st in
  result =
  summary_loop g_seed n_sim sscanf (filter (accepted sscanf) lines)
    summary_start st /\
  total (fst result) = Z.of_nat (length (filter (accepted sscanf) lines)) /\
  0 <= within_1pct (fst result) <= total (fst result).
Proof.
  intros Hb. cbv zeta. split; [apply summary_loop_filter | ].
  assert (Hw : 0 <= within_1pct summary_start <= total summary_start)
    by (cbn; lia).
  pose proof (summary_loop_counts lines summary_start st Hw Hb) as H.
  cbv zeta in H. cbn [summary_start total within_1pct] in H. lia.
Qed.

End TestDriver.

(** A record and a conversion for a two-line file: a comment, then a line
    that [sscanf] reads in full. *)
Lemma summary_loop_skips_rejected_lines_witness :
  let opt : OptionData (D := ieee annexF_libm) :=
    @Build_OptionData (ieee annexF_libm) String.EmptyString
      100%float 100%float 0.05%float 0.2%float 30 0%float in
  let sscanf := fun _ : String.string => (7%nat, opt) in
  let lines :=
    [String.String (Ascii.ascii_of_nat 35) String.EmptyString;
     String.String (Ascii.ascii_of_nat 65) String.EmptyString] in
  Z.of_nat (length (filter (accepted sscanf) lines)) < 2 ^ 31 /\
  (let result := summary_loop 42 2 sscanf lines summary_start 0 in
   result =
   summary_loop 42 2 sscanf (filter (accepted sscanf) lines) summary_start 0
   /\
   total (fst result) = Z.of_nat (length (filter (accepted sscanf) lines)) /\
   0 <= within_1pct (fst result) <= total (fst result)).
Proof.
  intros opt sscanf lines.
  assert (Hb : Z.of_nat (length (filter (accepted sscanf) lines)) < 2 ^ 31)
    by (cbn; lia).
  split; [exact Hb | ].
  apply (summary_loop_skips_rejected_lines (D := ieee annexF_libm)
           42 2 sscanf lines 0 Hb).
Defined.
